(** * Token-range partitioning of the bloom ring (pkg/bloomutils/ring.go)

    A shallow embedding of [GetInstanceWithTokenRange],
    [GetInstancesWithTokenRanges] and [NewInstanceSortMergeIterator], and the
    partition properties of the ranges they compute.

    Conventions.
    - Go's [uint32] and [uint64] values are integers in [Z]; every
      operation that can leave the type's range is followed by the
      explicit wrap-around ([uint32], [uint64] below).
    - A Go slice is a list.  Both entry points sort caller-owned slices in
      place, so each embedded function returns the contents of the caller's
      snapshot after the call next to the Go return value.  Every
      [Tokens] slice is taken to have a backing array of its own.
    - An iterator that is drained to the end is the list of the values it
      yields. *)

From Stdlib Require Import ZArith String List Bool Lia Permutation.
From Stdlib Require Import Sorting.Sorted.
Import ListNotations.
Local Open Scope Z_scope.

Set Implicit Arguments.

(** ** Machine integers *)

Definition MaxUint32 : Z := 4294967295.
Definition MaxUint64 : Z := 18446744073709551615.

(** Conversion to, and arithmetic in, [uint32] / [uint64]. *)
Definition uint32 (z : Z) : Z := z mod 2 ^ 32.
Definition uint64 (z : Z) : Z := z mod 2 ^ 64.

Definition is_uint32 (t : Z) : Prop := 0 <= t <= MaxUint32.
Definition is_uint64 (t : Z) : Prop := 0 <= t <= MaxUint64.

(** Sortedness of a slice with respect to an integer key. *)
Definition key_le {A : Type} (key : A -> Z) (a b : A) : Prop := key a <= key b.
Definition ascending {A : Type} (key : A -> Z) (l : list A) : Prop :=
  StronglySorted (key_le key) l.

(** ** package sort (Go standard library) *)

Module sort.

(** [sort.Slice(x, less)]: the slice after the call.  The library promises
    a permutation of the input that is ascending for [less], and
    explicitly not stability, so the order among equal keys is left open:
    the development is carried out for every function with this
    contract. *)
Class Sorter : Type := {
  Slice : forall A : Type, (A -> A -> bool) -> list A -> list A;
  Slice_perm : forall (A : Type) (less : A -> A -> bool) (x : list A),
      Permutation x (Slice less x);
  Slice_ascending :
    forall (A : Type) (key : A -> Z) (less : A -> A -> bool) (x : list A),
      (forall a b, less a b = (key a <? key b)) ->
      ascending key (Slice less x)
}.

(** The insertion sort that [sort.Slice] runs on slices shorter than
    twelve elements: element [i] moves left while it is [less] than its
    left neighbour. *)
Fixpoint insert {A : Type} (less : A -> A -> bool) (a : A) (sorted : list A)
  : list A :=
  match sorted with
  | [] => [a]
  | b :: rest => if less b a then b :: insert less a rest else a :: sorted
  end.

Definition insertionSort {A : Type} (less : A -> A -> bool) (x : list A)
  : list A :=
  fold_right (insert less) [] x.

End sort.

(** ** package slices (golang.org/x/exp/slices) *)

Module slices.

(** [slices.IndexFunc]: the first index whose element satisfies [f], or
    [-1].  [indexFrom i] is the loop from index [i] on. *)
Fixpoint indexFrom {A : Type} (i : Z) (s : list A) (f : A -> bool) : Z :=
  match s with
  | [] => -1
  | a :: rest => if f a then i else indexFrom (i + 1) rest f
  end.

Definition IndexFunc {A : Type} (s : list A) (f : A -> bool) : Z :=
  indexFrom 0 s f.

End slices.

(** ** package ring (github.com/grafana/dskit/ring) *)

Module ring.

(** [ring.InstanceDesc].  Of the fields of the dskit struct only [Id] and
    [Tokens] are read or written by this package. *)
Record InstanceDesc : Type := {
  Id : string;
  Tokens : list Z
}.

Inductive error : Type := ErrInstanceNotFound.

End ring.

(** ** package v1 (pkg/storage/bloom/v1) *)

Module v1.

Inductive BoundsCheck : Type := Before | Overlap | After.

(** Modelled from the spec: [v1.FingerprintBounds] and [v1.NewBounds]
    (package v1 is not among the sources).  An inclusive [[Min, Max]]
    slice of the 64-bit keyspace. *)
Record FingerprintBounds : Type := {
  Min : Z;
  Max : Z
}.

Definition NewBounds (min max : Z) : FingerprintBounds :=
  {| Min := min; Max := max |}.

(** Modelled from the spec: [FingerprintBounds.Cmp] (§4.1): [Before] if
    the token is below [min], [After] if it is above [max], else
    [Overlap]. *)
Definition Cmp (b : FingerprintBounds) (fp : Z) : BoundsCheck :=
  if fp <? Min b then Before
  else if Max b <? fp then After
  else Overlap.

(** Modelled from the spec: [v1.IndexedValue], a value tagged with the
    index of the sequence it comes from (§4.3 step 2). *)
Record IndexedValue (T : Type) : Type := {
  Value : T;
  Index : nat
}.

(** Modelled from the spec: [v1.NewSliceIter], [v1.NewIterWithIndex] and
    [v1.NewPeekingIter] (§4.3 step 2).  Peeking does not change what an
    iterator yields. *)
Definition NewSliceIter {T : Type} (s : list T) : list T := s.

Definition NewIterWithIndex {T : Type} (it : list T) (idx : nat)
  : list (IndexedValue T) :=
  map (fun v => {| Value := v; Index := idx |}) it.

Definition NewPeekingIter {T : Type} (it : list T) : list T := it.

(** Modelled from the spec: [v1.NewHeapIterator] (§4.3 step 3).  A k-way
    merge that repeatedly extracts the smallest next value over all
    sequences.  Which of two equal values comes first is unspecified;
    the contract fixes what every tie-break has in common. *)
Class HeapMerge : Type := {
  NewHeapIterator :
    forall T : Type, (T -> T -> bool) -> list (list T) -> list T;
  NewHeapIterator_perm :
    forall (T : Type) (less : T -> T -> bool) (itrs : list (list T)),
      Permutation (concat itrs) (NewHeapIterator less itrs);
  NewHeapIterator_ascending :
    forall (T : Type) (key : T -> Z) (less : T -> T -> bool)
           (itrs : list (list T)),
      (forall a b, less a b = (key a <? key b)) ->
      Forall (ascending key) itrs ->
      ascending key (NewHeapIterator less itrs)
}.

(** Modelled from the spec: one extraction of the k-way merge.  Among the
    sequences that are not exhausted, the one with the least head gives
    its head (the earliest such sequence on a tie). *)
Fixpoint popMin {T : Type} (less : T -> T -> bool) (itrs : list (list T))
  : option (T * list (list T)) :=
  match itrs with
  | [] => None
  | [] :: rest =>
      match popMin less rest with
      | Some (y, rest') => Some (y, [] :: rest')
      | None => None
      end
  | (x :: xs) :: rest =>
      match popMin less rest with
      | Some (y, rest') =>
          if less y x then Some (y, (x :: xs) :: rest')
          else Some (x, xs :: rest)
      | None => Some (x, xs :: rest)
      end
  end.

Fixpoint drain {T : Type} (less : T -> T -> bool) (fuel : nat)
         (itrs : list (list T)) : list T :=
  match fuel with
  | O => []
  | S fuel' =>
      match popMin less itrs with
      | Some (x, itrs') => x :: drain less fuel' itrs'
      | None => []
      end
  end.

(** Modelled from the spec: the k-way merge run to exhaustion; one
    extraction per value held by the sequences. *)
Definition heapMerge {T : Type} (less : T -> T -> bool)
           (itrs : list (list T)) : list T :=
  drain less (length (concat itrs)) itrs.

(** Modelled from the spec: [v1.NewDedupingIter] (§4.3 step 4).  The
    first value of a run is converted with [from]; while the next value
    is [eq] to the current result it is folded in with [merge].  [from]
    is a closure over mutable state, threaded here as [S]. *)
Section Dedupe.
Variables (A B S : Type).
Variable eq : A -> B -> bool.
Variable from : S -> A -> B * S.
Variable merge : A -> B -> B.

Fixpoint dedupeRun (tmp : B) (s : S) (itr : list A) : list B :=
  match itr with
  | [] => [tmp]
  | next :: itr' =>
      if eq next tmp then dedupeRun (merge next tmp) s itr'
      else tmp :: (let (b, s') := from s next in dedupeRun b s' itr')
  end.

Definition NewDedupingIter (s : S) (itr : list A) : list B :=
  match itr with
  | [] => []
  | a :: itr' => let (b, s') := from s a in dedupeRun b s' itr'
  end.
End Dedupe.

End v1.

Import ring v1.

(** ** package bloomutils *)

Record InstanceWithTokenRange : Type := {
  Instance : InstanceDesc;
  MinToken : Z;
  MaxToken : Z
}.

Definition InstanceWithTokenRange_Cmp (i : InstanceWithTokenRange) (token : Z)
  : BoundsCheck :=
  if token <? MinToken i then Before
  else if MaxToken i <? token then After
  else Overlap.

Definition BoundsCheck_eqb (a b : BoundsCheck) : bool :=
  match a, b with
  | Before, Before | Overlap, Overlap | After, After => true
  | _, _ => false
  end.

Definition InstancesWithTokenRange : Type := list InstanceWithTokenRange.

Definition Contains (i : InstancesWithTokenRange) (token : Z) : bool :=
  existsb (fun instance =>
             BoundsCheck_eqb (InstanceWithTokenRange_Cmp instance token) Overlap)
          i.

(** The zero value of [ring.InstanceDesc]. *)
Definition zeroInstance : InstanceDesc := {| Id := EmptyString; Tokens := [] |}.

(** [for i, inst := range instances]: the elements with their indices. *)
Definition enumerate {A : Type} (l : list A) : list (nat * A) :=
  combine (seq 0 (length l)) l.

(** The result of a call that can panic: [Panics], or the caller's
    snapshot after the call together with the returned values. *)
Inductive Exec (R : Type) : Type :=
| Panics
| Returns (post : list InstanceDesc) (ret : R).
Arguments Panics {R}.

Section Partitioners.

Context {sorter : sort.Sorter} {heap : HeapMerge}.

(** *** GetInstanceWithTokenRange *)

(** [instances[i].Tokens[0]]; the index expression panics on an instance
    without tokens, which [GetInstanceWithTokenRange] accounts for before
    this is used. *)
Definition firstToken (inst : InstanceDesc) : Z := hd 0 (Tokens inst).

(** [sort.Slice] does not call [less] on fewer than two elements and
    compares every element at least once otherwise, so the sort panics
    exactly on two or more instances one of which holds no token. *)
Definition lessPanics (instances : list InstanceDesc) : bool :=
  (2 <=? length instances)%nat
  && existsb (fun inst => match Tokens inst with [] => true | _ => false end)
             instances.

Definition GetInstanceWithTokenRange (id : string)
           (instances : list InstanceDesc)
  : Exec (FingerprintBounds * option error) :=
  if lessPanics instances then Panics
  else
    let instances :=
      sort.Slice (fun a b => firstToken a <? firstToken b) instances in
    let idx :=
      slices.IndexFunc instances (fun inst => String.eqb (Id inst) id) in
    if idx =? -1 then
      Returns instances (NewBounds 0 0, Some ErrInstanceNotFound)
    else
      let i := uint64 idx in
      let n := uint64 (Z.of_nat (length instances)) in
      let step := MaxUint64 / n in
      let minToken := uint64 (step * i) in
      let maxToken := uint64 (uint64 (uint64 (step * i) + step) - 1) in
      let maxToken := if i =? uint64 (n - 1) then MaxUint64 else maxToken in
      Returns instances (NewBounds minToken maxToken, None).

(** *** NewInstanceSortMergeIterator *)

(** [sort.Slice(inst.Tokens, ...)]: [inst] is a copy of the struct, its
    [Tokens] slice shares the caller's backing array. *)
Definition sortTokens (inst : InstanceDesc) : InstanceDesc :=
  {| Id := Id inst; Tokens := sort.Slice Z.ltb (Tokens inst) |}.

Definition tokenIter (e : nat * InstanceDesc) : list (IndexedValue Z) :=
  let (i, inst) := e in
  NewPeekingIter (NewIterWithIndex (NewSliceIter (Tokens inst)) i).

(** The conversion closure; [prevToken] is the captured Go [int]. *)
Definition fromIndexed (instances : list InstanceDesc) (prevToken : Z)
           (iv : IndexedValue Z) : InstanceWithTokenRange * Z :=
  let minToken := uint32 (prevToken + 1) in
  let maxToken := Value iv in
  let prevToken := maxToken in
  ({| Instance := nth (Index iv) instances zeroInstance;
      MinToken := minToken;
      MaxToken := maxToken |}, prevToken).

(** The tokens in merged order, as the heap iterator yields them. *)
Definition mergedTokens (instances : list InstanceDesc)
  : list (IndexedValue Z) :=
  NewPeekingIter
    (NewHeapIterator (fun iv1 iv2 => Value iv1 <? Value iv2)
                     (map tokenIter (enumerate instances))).

(** Returns the snapshot after the in-place sorts and the values of the
    iterator.  The third closure panics in the source; with the constant
    [false] equality it is never called ([dedupeRun_never_merges]). *)
Definition NewInstanceSortMergeIterator (instances : list InstanceDesc)
  : list InstanceDesc * list InstanceWithTokenRange :=
  let instances := map sortTokens instances in
  (instances,
   NewDedupingIter
     (fun (_ : IndexedValue Z) (_ : InstanceWithTokenRange) => false)
     (fromIndexed instances)
     (fun _ iwtr => iwtr)
     (-1)
     (mergedTokens instances)).

(** *** GetInstancesWithTokenRanges *)

Record scan : Type := {
  servers : list InstanceWithTokenRange;
  firstInst : InstanceDesc;
  lastToken : Z
}.

Definition scanInit : scan :=
  {| servers := []; firstInst := zeroInstance; lastToken := 0 |}.

(** One pass of the [for it.Next()] loop. *)
Definition scanStep (id : string) (st : scan) (at_ : InstanceWithTokenRange)
  : scan :=
  {| firstInst :=
       if String.eqb (Id (firstInst st)) EmptyString then Instance at_
       else firstInst st;
     servers :=
       if String.eqb (Id (Instance at_)) id then servers st ++ [at_]
       else servers st;
     lastToken := MaxToken at_ |}.

(** The range appended after the loop. *)
Definition wraparound (st : scan) (first : InstanceWithTokenRange)
  : InstanceWithTokenRange :=
  {| MinToken := uint32 (lastToken st + 1);
     MaxToken := MaxUint32;
     Instance := Instance first |}.

(** The guard [len(servers) > 0 && firstInst.Id == id]. *)
Definition appendsWraparound (id : string) (st : scan) : bool :=
  (0 <? length (servers st))%nat && String.eqb (Id (firstInst st)) id.

(** The state of the loop variables when the iterator is exhausted. *)
Definition scanAll (id : string) (it : list InstanceWithTokenRange) : scan :=
  fold_left (scanStep id) it scanInit.

Definition GetInstancesWithTokenRanges (id : string)
           (instances : list InstanceDesc)
  : list InstanceDesc * InstancesWithTokenRange :=
  let (instances, it) := NewInstanceSortMergeIterator instances in
  let st := scanAll id it in
  (instances,
   match servers st with
   | first :: _ =>
       if String.eqb (Id (firstInst st)) id
       then servers st ++ [wraparound st first]
       else servers st
   | [] => servers st
   end).

End Partitioners.

Unset Implicit Arguments.

(** * Notions used to state the properties *)

(** The largest [int], the bound on the length of a slice. *)
Definition MaxInt : Z := 9223372036854775807.

(** Every token of the snapshot is a [uint32]. *)
Definition tokensInRange (instances : list InstanceDesc) : Prop :=
  Forall (fun inst => Forall is_uint32 (Tokens inst)) instances.

(** All tokens of the snapshot, and the (token, owner id) pairs. *)
Definition allTokens (instances : list InstanceDesc) : list Z :=
  flat_map Tokens instances.

Definition tokenOwners (instances : list InstanceDesc) : list (Z * string) :=
  flat_map (fun inst => map (fun t => (t, Id inst)) (Tokens inst)) instances.

Definition rangeOwner (r : InstanceWithTokenRange) : Z * string :=
  (MaxToken r, Id (Instance r)).

(** The number of ranges that classify [token] as [Overlap]. *)
Definition overlaps (token : Z) (r : InstanceWithTokenRange) : bool :=
  BoundsCheck_eqb (InstanceWithTokenRange_Cmp r token) Overlap.

Definition overlapCount (token : Z) (rs : list InstanceWithTokenRange) : nat :=
  length (filter (overlaps token) rs).

Definition boundsOverlap (fp : Z) (b : FingerprintBounds) : bool :=
  BoundsCheck_eqb (Cmp b fp) Overlap.

Definition boundsOverlapCount (fp : Z) (bs : list FingerprintBounds) : nat :=
  length (filter (boundsOverlap fp) bs).

(** The ranges of the iterator that belong to [id]. *)
Definition ownedBy (id : string) (r : InstanceWithTokenRange) : bool :=
  String.eqb (Id (Instance r)) id.

(** The boundary fold over the merged tokens, written as a recursion:
    [prev] is the boundary emitted last. *)
Fixpoint rangesFrom (instances : list InstanceDesc) (prev : Z)
         (merged : list (IndexedValue Z)) : list InstanceWithTokenRange :=
  match merged with
  | [] => []
  | iv :: rest =>
      fst (fromIndexed instances prev iv)
        :: rangesFrom instances (snd (fromIndexed instances prev iv)) rest
  end.

(** Each range starts one above the boundary before it, in [uint32]. *)
Fixpoint chained (prev : Z) (rs : list InstanceWithTokenRange) : Prop :=
  match rs with
  | [] => True
  | r :: rest => MinToken r = uint32 (prev + 1) /\ chained (MaxToken r) rest
  end.

(** Strictly ascending sequences of tokens. *)
Definition strictlyAscending (ts : list Z) : Prop := StronglySorted Z.lt ts.

(** The equal-width slot of ordinal [i] among [n] instances. *)
Definition slot (n i : Z) : FingerprintBounds :=
  let step := MaxUint64 / n in
  NewBounds (i * step)
            (if i =? n - 1 then MaxUint64 else i * step + step - 1).

(** The stated precondition of the single-token path, as far as the code
    relies on it: [Tokens[0]] exists. *)
Definition holdsToken (inst : InstanceDesc) : Prop := Tokens inst <> [].

(** The (token, index) pairs the per-instance iterators hold. *)
Definition tagged (instances : list InstanceDesc) : list (IndexedValue Z) :=
  concat (map tokenIter (enumerate instances)).

(** The value of [firstInst] after scanning [it], starting from [cur]. *)
Fixpoint pickFirst (cur : InstanceDesc) (it : list InstanceWithTokenRange)
  : InstanceDesc :=
  match it with
  | [] => cur
  | r :: rest =>
      pickFirst (if String.eqb (Id cur) EmptyString then Instance r else cur)
                rest
  end.

(** Each range starts exactly one above the boundary before it. *)
Fixpoint chainedPlain (prev : Z) (rs : list InstanceWithTokenRange) : Prop :=
  match rs with
  | [] => True
  | r :: rest => MinToken r = prev + 1 /\ chainedPlain (MaxToken r) rest
  end.

Section Notions.
Context {sorter : sort.Sorter} {heap : HeapMerge}.

(** The values of the iterator over a snapshot. *)
Definition emitted (instances : list InstanceDesc)
  : list InstanceWithTokenRange :=
  snd (NewInstanceSortMergeIterator instances).

(** Whether the call for [id] appends the wraparound range. *)
Definition receivesWraparound (id : string) (instances : list InstanceDesc)
  : bool :=
  appendsWraparound id (scanAll id (emitted instances)).

(** The ids present in the snapshot, each once. *)
Definition idsOf (instances : list InstanceDesc) : list string :=
  nodup string_dec (map Id instances).

(** The ranges returned over all ids present in the snapshot, one call per
    id. *)
Definition allRanges (instances : list InstanceDesc)
  : list InstanceWithTokenRange :=
  flat_map (fun id => snd (GetInstancesWithTokenRanges id instances))
           (idsOf instances).

(** The order in which [GetInstanceWithTokenRange] leaves the caller's
    slice. *)
Definition byFirstToken (instances : list InstanceDesc)
  : list InstanceDesc :=
  sort.Slice (fun a b => firstToken a <? firstToken b) instances.

(** The call for [id] returns the ranges of [id] followed by one more
    range that ends at the top of the keyspace. *)
Definition wraparoundAppended (id : string) (instances : list InstanceDesc)
  : Prop :=
  exists w,
    snd (GetInstancesWithTokenRanges id instances)
    = filter (ownedBy id) (emitted instances) ++ [w]
    /\ MaxToken w = MaxUint32.

(** The call for [id] returns the ranges of [id] and nothing else. *)
Definition noWraparound (id : string) (instances : list InstanceDesc)
  : Prop :=
  snd (GetInstancesWithTokenRanges id instances)
  = filter (ownedBy id) (emitted instances).

End Notions.

(** The instances with the given id hold a globally smallest token. *)
Definition ownsSmallestToken (id : string) (instances : list InstanceDesc)
  : Prop :=
  exists inst t,
    In inst instances /\ Id inst = id /\ In t (Tokens inst)
    /\ forall u, In u (allTokens instances) -> t <= u.

(** The globally smallest token is held under one id only. *)
Definition smallestTokenUnderOneId (instances : list InstanceDesc) : Prop :=
  forall id1 id2,
    ownsSmallestToken id1 instances -> ownsSmallestToken id2 instances ->
    id1 = id2.

(** ** Notions for the further properties *)

(** The three classifications in the order of the keyspace. *)
Definition BoundsCheck_rank (c : BoundsCheck) : Z :=
  match c with
  | Before => 0
  | Overlap => 1
  | After => 2
  end.

(** A range as a caller reads it: its bounds and the id of its owner. *)
Definition rangeTriple (r : InstanceWithTokenRange) : Z * Z * string :=
  (MinToken r, MaxToken r, Id (Instance r)).

(** Ranges in ascending order, each ending below the start of the next. *)
Definition disjointAscending (rs : list InstanceWithTokenRange) : Prop :=
  StronglySorted (fun r1 r2 => MaxToken r1 < MinToken r2) rs.

(** The tokens held by the instances with the given id. *)
Definition tokensOf (id : string) (instances : list InstanceDesc) : list Z :=
  flat_map Tokens (filter (fun inst => String.eqb (Id inst) id) instances).

(** [math.MaxUint32] is the token of at most one instance, once. *)
Definition topTokenOnce (instances : list InstanceDesc) : Prop :=
  (count_occ Z.eq_dec (allTokens instances) MaxUint32 <= 1)%nat.

(** The width of a range of fingerprints. *)
Definition width (b : FingerprintBounds) : Z := Max b - Min b + 1.

(** The returned list as a function of the values of the iterator. *)
Definition collect (id : string) (it : list InstanceWithTokenRange)
  : list InstanceWithTokenRange :=
  filter (ownedBy id) it
  ++ (if appendsWraparound id (scanAll id it)
      then [wraparound (scanAll id it)
                       (hd (wraparound (scanAll id it)
                                       {| Instance := zeroInstance;
                                          MinToken := 0;
                                          MaxToken := 0 |})
                           (filter (ownedBy id) it))]
      else []).

(** ** Snapshots used as examples *)

Definition mk (id : string) (tokens : list Z) : InstanceDesc :=
  {| Id := id; Tokens := tokens |}.

(** Scenario A of the specification: three single-token instances. *)
Definition scenarioA : list InstanceDesc :=
  [mk "b" [7]; mk "a" [3]; mk "c" [9]].

(** Scenario B of the specification: one instance with two tokens. *)
Definition scenarioB : list InstanceDesc :=
  [mk "A" [50; 10]; mk "B" [30]].

(** Two instances that hold the same token. *)
Definition sharedToken : list InstanceDesc := [mk "a" [5]; mk "b" [5]].

(** The owner of the least token has the empty id. *)
Definition emptyIdFirst : list InstanceDesc := [mk "" [1]; mk "b" [5]].

(** The largest token of the ring is [math.MaxUint32]. *)
Definition topToken : list InstanceDesc := [mk "a" [4294967295]].

(** An instance without tokens. *)
Definition noTokens : list InstanceDesc := [mk "a" []].

(** The instances slice is out of order; a [Tokens] slice is out of order. *)
Definition unsortedInstances : list InstanceDesc := [mk "b" [7]; mk "a" [3]].
Definition unsortedTokens : list InstanceDesc := [mk "a" [50; 10]].

(** * The reference sorter and merger meet their contracts *)

Lemma key_le_trans {A : Type} (key : A -> Z) (a b : A) (l : list A) :
  key_le key a b -> Forall (key_le key b) l -> Forall (key_le key a) l.
Proof.
  intros Hab Hl. eapply Forall_impl; [|exact Hl].
  unfold key_le in *. intros c Hc. lia.
Qed.

Lemma insert_perm {A : Type} (less : A -> A -> bool) (a : A) (l : list A) :
  Permutation (a :: l) (sort.insert less a l).
Proof.
  induction l as [|b rest IH]; simpl.
  - apply Permutation_refl.
  - destruct (less b a).
    + eapply perm_trans; [apply perm_swap|]. now apply perm_skip.
    + apply Permutation_refl.
Qed.

Lemma insertionSort_perm {A : Type} (less : A -> A -> bool) (x : list A) :
  Permutation x (sort.insertionSort less x).
Proof.
  induction x as [|a x IH]; simpl.
  - apply perm_nil.
  - eapply perm_trans; [apply perm_skip, IH|]. apply insert_perm.
Qed.

Lemma insert_ascending {A : Type} (key : A -> Z) (less : A -> A -> bool)
      (a : A) (l : list A) :
  (forall a b, less a b = (key a <? key b)) ->
  ascending key l -> ascending key (sort.insert less a l).
Proof.
  intros Hless. unfold ascending.
  induction l as [|b rest IH]; simpl; intros Hs.
  - constructor; constructor.
  - inversion Hs as [|? ? Hrest Hb]; subst.
    rewrite Hless. destruct (Z.ltb_spec (key b) (key a)) as [Hlt|Hge].
    + constructor; [now apply IH|].
      eapply Permutation_Forall; [apply insert_perm|].
      constructor; [unfold key_le; lia|exact Hb].
    + constructor; [exact Hs|].
      constructor; [exact Hge|]. now apply key_le_trans with b.
Qed.

Lemma insertionSort_ascending {A : Type} (key : A -> Z) (less : A -> A -> bool)
      (x : list A) :
  (forall a b, less a b = (key a <? key b)) ->
  ascending key (sort.insertionSort less x).
Proof.
  intros Hless. induction x as [|a x IH]; simpl.
  - constructor.
  - now apply insert_ascending.
Qed.

#[export] Instance insertionSorter : sort.Sorter := {|
  sort.Slice := @sort.insertionSort;
  sort.Slice_perm := @insertionSort_perm;
  sort.Slice_ascending := @insertionSort_ascending
|}.

Lemma popMin_perm {T : Type} (less : T -> T -> bool) (itrs : list (list T)) :
  match popMin less itrs with
  | Some (x, itrs') => Permutation (concat itrs) (x :: concat itrs')
  | None => concat itrs = []
  end.
Proof.
  induction itrs as [|[|x xs] rest IH]; simpl.
  - reflexivity.
  - destruct (popMin less rest) as [[y rest']|]; exact IH.
  - destruct (popMin less rest) as [[y rest']|].
    + destruct (less y x); [|apply Permutation_refl].
      change (Permutation ((x :: xs) ++ concat rest)
                          (y :: (x :: xs) ++ concat rest')).
      eapply perm_trans; [apply Permutation_app_head, IH|].
      apply Permutation_sym, Permutation_middle.
    + apply Permutation_refl.
Qed.

Lemma drain_perm {T : Type} (less : T -> T -> bool) (fuel : nat) :
  forall itrs : list (list T),
    length (concat itrs) = fuel ->
    Permutation (concat itrs) (drain less fuel itrs).
Proof.
  induction fuel as [|fuel IH]; intros itrs Hlen; simpl.
  - destruct (concat itrs); [apply perm_nil|discriminate].
  - pose proof (popMin_perm less itrs) as Hpop.
    destruct (popMin less itrs) as [[x itrs']|].
    + eapply perm_trans; [exact Hpop|]. apply perm_skip, IH.
      apply Permutation_length in Hpop. simpl in Hpop. lia.
    + rewrite Hpop in Hlen. discriminate.
Qed.

Lemma heapMerge_perm {T : Type} (less : T -> T -> bool)
      (itrs : list (list T)) :
  Permutation (concat itrs) (heapMerge less itrs).
Proof. now apply drain_perm. Qed.

Lemma popMin_least {T : Type} (key : T -> Z) (less : T -> T -> bool)
      (itrs : list (list T)) :
  (forall a b, less a b = (key a <? key b)) ->
  Forall (ascending key) itrs ->
  forall x itrs', popMin less itrs = Some (x, itrs') ->
    Forall (key_le key x) (concat itrs') /\ Forall (ascending key) itrs'.
Proof.
  intros Hless. unfold ascending.
  induction itrs as [|[|x xs] rest IH]; simpl; intros Hasc y itrs' Hpop.
  - discriminate.
  - inversion Hasc as [|? ? Hnil Hrest]; subst.
    destruct (popMin less rest) as [[z rest']|] eqn:E; [|discriminate].
    injection Hpop as <- <-. destruct (IH Hrest _ _ eq_refl) as [H1 H2].
    split; [exact H1|now constructor].
  - inversion Hasc as [|? ? Hx Hrest]; subst.
    inversion Hx as [|? ? Hxs Hxle]; subst.
    pose proof (popMin_perm less rest) as Hperm.
    destruct (popMin less rest) as [[z rest']|] eqn:E.
    + destruct (IH Hrest _ _ eq_refl) as [H1 H2].
      rewrite Hless in Hpop.
      destruct (Z.ltb_spec (key z) (key x)) as [Hlt|Hge];
        injection Hpop as <- <-.
      * split; [|now constructor].
        simpl. constructor; [unfold key_le; lia|].
        apply Forall_app. split; [|exact H1].
        apply key_le_trans with x; [unfold key_le; lia|exact Hxle].
      * split; [|now constructor].
        simpl. apply Forall_app. split; [exact Hxle|].
        eapply Permutation_Forall; [apply Permutation_sym, Hperm|].
        constructor; [exact Hge|]. now apply key_le_trans with z.
    + injection Hpop as <- <-. split; [|now constructor].
      simpl. rewrite Hperm, app_nil_r. exact Hxle.
Qed.

Lemma drain_ascending {T : Type} (key : T -> Z) (less : T -> T -> bool)
      (fuel : nat) :
  (forall a b, less a b = (key a <? key b)) ->
  forall itrs : list (list T),
    length (concat itrs) = fuel ->
    Forall (ascending key) itrs ->
    ascending key (drain less fuel itrs).
Proof.
  intros Hless. induction fuel as [|fuel IH]; intros itrs Hlen Hasc; simpl.
  - constructor.
  - pose proof (popMin_perm less itrs) as Hperm.
    destruct (popMin less itrs) as [[x itrs']|] eqn:E; [|constructor].
    destruct (popMin_least key less itrs Hless Hasc _ _ E) as [Hle Hasc'].
    assert (Hlen' : length (concat itrs') = fuel).
    { apply Permutation_length in Hperm. simpl in Hperm. lia. }
    constructor; [now apply IH|].
    eapply Permutation_Forall; [apply drain_perm, Hlen'|exact Hle].
Qed.

Lemma heapMerge_ascending {T : Type} (key : T -> Z) (less : T -> T -> bool)
      (itrs : list (list T)) :
  (forall a b, less a b = (key a <? key b)) ->
  Forall (ascending key) itrs ->
  ascending key (heapMerge less itrs).
Proof. intros Hless Hasc. now apply drain_ascending. Qed.

#[export] Instance extractMinMerge : HeapMerge := {|
  NewHeapIterator := @heapMerge;
  NewHeapIterator_perm := @heapMerge_perm;
  NewHeapIterator_ascending := @heapMerge_ascending
|}.


(** * Sorted lists *)

Lemma ascending_map {A : Type} (key : A -> Z) (l : list A) :
  ascending key l <-> StronglySorted Z.le (map key l).
Proof.
  unfold ascending. induction l as [|a l IH]; simpl.
  - split; constructor.
  - split; intros H; inversion H as [|? ? Hl Ha]; subst;
      (constructor; [now apply IH|]).
    + rewrite Forall_forall in *. intros k Hk.
      apply in_map_iff in Hk. destruct Hk as [b [<- Hb]]. now apply Ha.
    + rewrite Forall_forall in *. intros b Hb. apply Ha. now apply in_map.
Qed.

Lemma ascending_tagged {A B : Type} (key : B -> Z) (f : A -> B) (l : list A) :
  ascending (fun a => key (f a)) l -> ascending key (map f l).
Proof.
  intros H. apply ascending_map. rewrite map_map. now apply ascending_map in H.
Qed.

Lemma ascending_app_inv {A : Type} (key : A -> Z) (l1 l2 : list A) :
  ascending key (l1 ++ l2) ->
  forall a b, In a l1 -> In b l2 -> key a <= key b.
Proof.
  unfold ascending. induction l1 as [|x l1 IH]; simpl; intros H a b Ha Hb.
  - contradiction.
  - inversion H as [|? ? Hl Hx]; subst. destruct Ha as [<-|Ha].
    + rewrite Forall_forall in Hx. apply Hx, in_or_app. now right.
    + now apply IH.
Qed.

(** An ascending permutation is unique when the key identifies the
    element. *)
Lemma ascending_perm_unique {A : Type} (key : A -> Z) (l1 : list A) :
  forall l2 : list A,
    (forall a b, In a l1 -> In b l1 -> key a = key b -> a = b) ->
    Permutation l1 l2 -> ascending key l1 -> ascending key l2 -> l1 = l2.
Proof.
  unfold ascending.
  induction l1 as [|a l1 IH]; intros l2 Hinj Hperm H1 H2.
  - apply Permutation_nil in Hperm. now subst.
  - destruct l2 as [|b l2].
    { apply Permutation_sym, Permutation_nil in Hperm. discriminate. }
    inversion H1 as [|? ? H1' Ha]; subst.
    inversion H2 as [|? ? H2' Hb]; subst.
    assert (Hab : a = b).
    { assert (Hina : In a (b :: l2))
        by (eapply Permutation_in; [exact Hperm|now left]).
      assert (Hinb : In b (a :: l1))
        by (eapply Permutation_in; [apply Permutation_sym, Hperm|now left]).
      apply Hinj; [now left|exact Hinb|].
      rewrite Forall_forall in Ha, Hb. unfold key_le in *.
      destruct Hina as [->|Hina]; [reflexivity|].
      destruct Hinb as [->|Hinb]; [reflexivity|].
      specialize (Ha _ Hinb). specialize (Hb _ Hina). lia. }
    subst b. f_equal. apply IH; auto.
    + intros x y Hx Hy. apply Hinj; now right.
    + now apply Permutation_cons_inv in Hperm.
Qed.

Lemma sorted_tokens_unique (l1 l2 : list Z) :
  Permutation l1 l2 -> ascending (fun t => t) l1 -> ascending (fun t => t) l2 ->
  l1 = l2.
Proof.
  intros Hperm H1 H2.
  apply (ascending_perm_unique (fun t => t)); auto.
Qed.

Lemma le_NoDup_strict (ts : list Z) :
  StronglySorted Z.le ts -> NoDup ts -> strictlyAscending ts.
Proof.
  unfold strictlyAscending.
  induction ts as [|t ts IH]; intros Hs Hnd; [constructor|].
  inversion Hs as [|? ? Hs' Ht]; subst. inversion Hnd as [|? ? Hnotin Hnd']; subst.
  constructor; [now apply IH|].
  rewrite Forall_forall in *. intros u Hu. specialize (Ht u Hu).
  assert (t <> u) by (intros ->; contradiction). lia.
Qed.

Lemma strict_NoDup (ts : list Z) : strictlyAscending ts -> NoDup ts.
Proof.
  unfold strictlyAscending. induction 1 as [|t ts _ IH Hlt]; constructor.
  - intros Hin. rewrite Forall_forall in Hlt. specialize (Hlt _ Hin). lia.
  - exact IH.
Qed.

Lemma strict_le (ts : list Z) :
  strictlyAscending ts -> StronglySorted Z.le ts.
Proof.
  unfold strictlyAscending. induction 1 as [|t ts _ IH Hlt]; constructor.
  - exact IH.
  - eapply Forall_impl; [|exact Hlt]. intros u Hu. lia.
Qed.

Lemma NoDup_map_eq {A B : Type} (f : A -> B) (l : list A) :
  NoDup (map f l) ->
  forall a b, In a l -> In b l -> f a = f b -> a = b.
Proof.
  induction l as [|x l IH]; intros Hnd a b Ha Hb Hab; [contradiction|].
  simpl in Hnd. inversion Hnd as [|? ? Hnotin Hnd']; subst.
  destruct Ha as [->|Ha], Hb as [->|Hb]; auto.
  - exfalso. apply Hnotin. rewrite Hab. now apply in_map.
  - exfalso. apply Hnotin. rewrite <- Hab. now apply in_map.
Qed.

(** * The iterator as a boundary fold over the merged tokens *)

(** With the constant [false] equality the merge closure is never used. *)
Lemma dedupeRun_never_merges {A B S : Type} (from : S -> A -> B * S)
      (merge1 merge2 : A -> B -> B) (itr : list A) :
  forall (tmp : B) (s : S),
    dedupeRun (fun _ _ => false) from merge1 tmp s itr
    = dedupeRun (fun _ _ => false) from merge2 tmp s itr.
Proof.
  induction itr as [|a itr IH]; intros tmp s; simpl; [reflexivity|].
  destruct (from s a) as [b s']. now rewrite IH.
Qed.

Lemma dedupeRun_rangesFrom (instances : list InstanceDesc)
      (merge : IndexedValue Z -> InstanceWithTokenRange -> InstanceWithTokenRange)
      (itr : list (IndexedValue Z)) :
  forall (tmp : InstanceWithTokenRange) (prev : Z),
    dedupeRun (fun _ _ => false) (fromIndexed instances) merge tmp prev itr
    = tmp :: rangesFrom instances prev itr.
Proof.
  induction itr as [|iv itr IH]; intros tmp prev; simpl; [reflexivity|].
  now rewrite IH.
Qed.

Lemma rangesFrom_MaxToken instances (merged : list (IndexedValue Z)) :
  forall prev, map MaxToken (rangesFrom instances prev merged)
               = map (@Value Z) merged.
Proof. induction merged as [|iv l IH]; intros prev; simpl; [|rewrite IH]; reflexivity. Qed.

Lemma rangesFrom_Instance instances (merged : list (IndexedValue Z)) :
  forall prev, map Instance (rangesFrom instances prev merged)
               = map (fun iv => nth (Index iv) instances zeroInstance) merged.
Proof. induction merged as [|iv l IH]; intros prev; simpl; [|rewrite IH]; reflexivity. Qed.

Lemma rangesFrom_chained instances (merged : list (IndexedValue Z)) :
  forall prev, chained prev (rangesFrom instances prev merged).
Proof.
  induction merged as [|iv l IH]; intros prev; simpl; [exact I|].
  split; [reflexivity|apply IH].
Qed.

Lemma tagged_owners_from (l : list InstanceDesc) :
  forall pre : list InstanceDesc,
    map (fun iv => (Value iv, nth (Index iv) (pre ++ l) zeroInstance))
        (concat (map tokenIter (combine (seq (length pre) (length l)) l)))
    = flat_map (fun inst => map (fun t => (t, inst)) (Tokens inst)) l.
Proof.
  induction l as [|a l IH]; intros pre; simpl; [reflexivity|].
  rewrite map_app. f_equal.
  - unfold NewPeekingIter, NewIterWithIndex, NewSliceIter.
    rewrite map_map. simpl. apply map_ext. intros t.
    now rewrite nth_middle.
  - specialize (IH (pre ++ [a])).
    rewrite <- app_assoc, length_app in IH. simpl in IH.
    now rewrite Nat.add_1_r in IH.
Qed.

Lemma tagged_owners (instances : list InstanceDesc) :
  map (fun iv => (Value iv, nth (Index iv) instances zeroInstance))
      (tagged instances)
  = flat_map (fun inst => map (fun t => (t, inst)) (Tokens inst)) instances.
Proof. exact (tagged_owners_from instances []). Qed.

Lemma tokenOwners_pairs (instances : list InstanceDesc) :
  tokenOwners instances
  = map (fun p => (fst p, Id (snd p)))
        (flat_map (fun inst => map (fun t => (t, inst)) (Tokens inst)) instances).
Proof.
  unfold tokenOwners. induction instances as [|a l IH]; simpl; [reflexivity|].
  rewrite map_app, map_map, IH. reflexivity.
Qed.

Lemma allTokens_pairs (instances : list InstanceDesc) :
  allTokens instances = map fst (tokenOwners instances).
Proof.
  unfold allTokens, tokenOwners.
  induction instances as [|a l IH]; simpl; [reflexivity|].
  rewrite map_app, map_map, <- IH. simpl. now rewrite map_id.
Qed.

Section Iterator.
Context {sorter : sort.Sorter} {heap : HeapMerge}.

Lemma sortTokens_Id (instances : list InstanceDesc) :
  map Id (map sortTokens instances) = map Id instances.
Proof. rewrite map_map. reflexivity. Qed.

Lemma sortTokens_perm (inst : InstanceDesc) :
  Permutation (Tokens inst) (Tokens (sortTokens inst)).
Proof. apply sort.Slice_perm. Qed.

Lemma sortTokens_ascending (inst : InstanceDesc) :
  ascending (fun t => t) (Tokens (sortTokens inst)).
Proof. apply sort.Slice_ascending. reflexivity. Qed.

Lemma sortTokens_owners (instances : list InstanceDesc) :
  Permutation (tokenOwners (map sortTokens instances)) (tokenOwners instances).
Proof.
  unfold tokenOwners. induction instances as [|a l IH]; simpl; [constructor|].
  apply Permutation_app; [|exact IH].
  apply Permutation_map, Permutation_sym, sortTokens_perm.
Qed.

Lemma NewInstanceSortMergeIterator_eq (instances : list InstanceDesc) :
  NewInstanceSortMergeIterator instances
  = (map sortTokens instances,
     rangesFrom (map sortTokens instances) (-1)
                (mergedTokens (map sortTokens instances))).
Proof.
  unfold NewInstanceSortMergeIterator, NewDedupingIter. f_equal.
  destruct (mergedTokens (map sortTokens instances)) as [|iv l];
    [reflexivity|].
  simpl. now rewrite dedupeRun_rangesFrom.
Qed.

Lemma emitted_eq (instances : list InstanceDesc) :
  emitted instances
  = rangesFrom (map sortTokens instances) (-1)
               (mergedTokens (map sortTokens instances)).
Proof. unfold emitted. now rewrite NewInstanceSortMergeIterator_eq. Qed.

Lemma mergedTokens_perm (instances : list InstanceDesc) :
  Permutation (tagged instances) (mergedTokens instances).
Proof. apply NewHeapIterator_perm. Qed.

Lemma tokenIters_ascending (l : list InstanceDesc) :
  forall k : nat,
    Forall (ascending (@Value Z))
           (map tokenIter (combine (seq k (length l)) (map sortTokens l))).
Proof.
  induction l as [|a l IH]; intros k; simpl; constructor.
  - unfold NewPeekingIter, NewIterWithIndex, NewSliceIter.
    apply ascending_tagged. simpl. apply (sortTokens_ascending a).
  - apply IH.
Qed.

Lemma mergedTokens_ascending (instances : list InstanceDesc) :
  ascending (@Value Z) (mergedTokens (map sortTokens instances)).
Proof.
  apply NewHeapIterator_ascending; [reflexivity|].
  unfold enumerate. rewrite length_map. apply tokenIters_ascending.
Qed.

(** The iterator yields every (token, owner) pair of the snapshot. *)
Lemma emitted_owners (instances : list InstanceDesc) :
  Permutation (map rangeOwner (emitted instances)) (tokenOwners instances).
Proof.
  rewrite emitted_eq. set (post := map sortTokens instances).
  eapply perm_trans; [|apply sortTokens_owners]. fold post.
  rewrite tokenOwners_pairs, <- tagged_owners, map_map. simpl.
  assert (Hmap : forall l prev,
             map rangeOwner (rangesFrom post prev l)
             = map (fun iv => (Value iv, Id (nth (Index iv) post zeroInstance)))
                   l).
  { induction l as [|iv l IH]; intros prev; simpl; [|rewrite IH];
      reflexivity. }
  rewrite Hmap. apply Permutation_map, Permutation_sym, mergedTokens_perm.
Qed.

Lemma emitted_tokens_perm (instances : list InstanceDesc) :
  Permutation (map MaxToken (emitted instances)) (allTokens instances).
Proof.
  rewrite allTokens_pairs.
  eapply perm_trans; [|apply Permutation_map, emitted_owners].
  rewrite map_map. apply Permutation_refl.
Qed.

Lemma emitted_tokens_ascending (instances : list InstanceDesc) :
  StronglySorted Z.le (map MaxToken (emitted instances)).
Proof.
  rewrite emitted_eq, rangesFrom_MaxToken.
  apply (proj1 (ascending_map (@Value Z) _)), mergedTokens_ascending.
Qed.

Lemma emitted_chained (instances : list InstanceDesc) :
  chained (-1) (emitted instances).
Proof. rewrite emitted_eq. apply rangesFrom_chained. Qed.

Lemma emitted_ids (instances : list InstanceDesc) :
  forall r, In r (emitted instances) ->
            In (Id (Instance r)) (map Id instances).
Proof.
  intros r Hr.
  assert (H : In (rangeOwner r) (tokenOwners instances)).
  { eapply Permutation_in; [apply emitted_owners|]. now apply in_map. }
  unfold tokenOwners in H. apply in_flat_map in H.
  destruct H as [inst [Hinst Hin]]. apply in_map_iff in Hin.
  destruct Hin as [t [Heq _]]. unfold rangeOwner in Heq.
  injection Heq as _ Hid. rewrite <- Hid. now apply in_map.
Qed.

Lemma emitted_in_range (instances : list InstanceDesc) :
  tokensInRange instances ->
  Forall is_uint32 (map MaxToken (emitted instances)).
Proof.
  intros Hwf. eapply Permutation_Forall;
    [apply Permutation_sym, emitted_tokens_perm|].
  unfold allTokens. apply Forall_forall. intros t Ht.
  apply in_flat_map in Ht. destruct Ht as [inst [Hinst Ht]].
  unfold tokensInRange in Hwf. rewrite Forall_forall in Hwf.
  specialize (Hwf _ Hinst). rewrite Forall_forall in Hwf. now apply Hwf.
Qed.

End Iterator.

(** * The scan of GetInstancesWithTokenRanges *)

Lemma scan_servers (id : string) (it : list InstanceWithTokenRange) :
  forall st, servers (fold_left (scanStep id) it st)
             = servers st ++ filter (ownedBy id) it.
Proof.
  induction it as [|r it IH]; intros st; simpl.
  - now rewrite app_nil_r.
  - rewrite IH. simpl. unfold ownedBy.
    destruct (String.eqb (Id (Instance r)) id); [|reflexivity].
    now rewrite <- app_assoc.
Qed.

Lemma last_default {A : Type} (l : list A) (d d' : A) :
  l <> [] -> last l d = last l d'.
Proof.
  induction l as [|a l IH]; intros Hne; [contradiction|].
  destruct l as [|b l]; [reflexivity|].
  change (last (b :: l) d = last (b :: l) d'). apply IH. discriminate.
Qed.

Lemma scan_lastToken (id : string) (it : list InstanceWithTokenRange) :
  forall st, lastToken (fold_left (scanStep id) it st)
             = last (map MaxToken it) (lastToken st).
Proof.
  induction it as [|r it IH]; intros st; simpl; [reflexivity|].
  rewrite IH. simpl. destruct it as [|r' it]; [reflexivity|].
  apply last_default. discriminate.
Qed.

Lemma scan_firstInst (id : string) (it : list InstanceWithTokenRange) :
  forall st, firstInst (fold_left (scanStep id) it st)
             = pickFirst (firstInst st) it.
Proof.
  induction it as [|r it IH]; intros st; simpl; [reflexivity|].
  now rewrite IH.
Qed.

Lemma pickFirst_set (cur : InstanceDesc) (it : list InstanceWithTokenRange) :
  Id cur <> EmptyString -> pickFirst cur it = cur.
Proof.
  revert cur. induction it as [|r it IH]; intros cur Hcur; simpl; [reflexivity|].
  destruct (String.eqb_spec (Id cur) EmptyString); [contradiction|].
  now apply IH.
Qed.

Lemma pickFirst_in (it : list InstanceWithTokenRange) :
  forall cur, Id cur = EmptyString -> it <> [] ->
              exists r, In r it /\ Id (pickFirst cur it) = Id (Instance r).
Proof.
  induction it as [|r it IH]; intros cur Hcur Hne; [contradiction|].
  simpl. rewrite Hcur. simpl.
  destruct (String.eqb_spec (Id (Instance r)) EmptyString) as [He|Hn].
  - destruct it as [|r' it].
    + exists r. split; [now left|reflexivity].
    + destruct (IH (Instance r) He) as [x [Hx Hid]]; [discriminate|].
      exists x. split; [now right|exact Hid].
  - rewrite pickFirst_set by exact Hn. exists r. split; [now left|reflexivity].
Qed.

Lemma pickFirst_head (r : InstanceWithTokenRange)
      (it : list InstanceWithTokenRange) :
  Id (Instance r) <> EmptyString ->
  pickFirst zeroInstance (r :: it) = Instance r.
Proof. intros Hr. simpl. now apply pickFirst_set. Qed.

Section Scan.
Context {sorter : sort.Sorter} {heap : HeapMerge}.

Lemma scanAll_servers (id : string) (it : list InstanceWithTokenRange) :
  servers (scanAll id it) = filter (ownedBy id) it.
Proof. unfold scanAll. now rewrite scan_servers. Qed.

Lemma scanAll_lastToken (id : string) (it : list InstanceWithTokenRange) :
  lastToken (scanAll id it) = last (map MaxToken it) 0.
Proof. unfold scanAll. now rewrite scan_lastToken. Qed.

Lemma scanAll_firstInst (id : string) (it : list InstanceWithTokenRange) :
  firstInst (scanAll id it) = pickFirst zeroInstance it.
Proof. unfold scanAll. now rewrite scan_firstInst. Qed.

(** The snapshot after the call: every [Tokens] slice sorted in place. *)
Lemma GetInstancesWithTokenRanges_post (id : string)
      (instances : list InstanceDesc) :
  fst (GetInstancesWithTokenRanges id instances) = map sortTokens instances.
Proof.
  unfold GetInstancesWithTokenRanges.
  now rewrite NewInstanceSortMergeIterator_eq.
Qed.

(** The returned list: the ranges of [id] in iterator order, then the
    wraparound range when the guard holds. *)
Lemma GetInstancesWithTokenRanges_ranges (id : string)
      (instances : list InstanceDesc) :
  snd (GetInstancesWithTokenRanges id instances)
  = filter (ownedBy id) (emitted instances)
    ++ (if receivesWraparound id instances
        then [wraparound (scanAll id (emitted instances))
                         (hd (wraparound (scanAll id (emitted instances))
                                         {| Instance := zeroInstance;
                                            MinToken := 0;
                                            MaxToken := 0 |})
                             (filter (ownedBy id) (emitted instances)))]
        else []).
Proof.
  unfold GetInstancesWithTokenRanges, receivesWraparound, emitted,
    appendsWraparound.
  destruct (NewInstanceSortMergeIterator instances) as [post it]. simpl.
  rewrite scanAll_servers.
  destruct (filter (ownedBy id) it) as [|first rest] eqn:E; simpl.
  - reflexivity.
  - destruct (String.eqb (Id (firstInst (scanAll id it))) id);
      [reflexivity|now rewrite app_nil_r].
Qed.

(** The guard in terms of the iterator: some range was yielded and
    [firstInst] carries the requested id. *)
Lemma receivesWraparound_iff (id : string) (instances : list InstanceDesc) :
  receivesWraparound id instances = true
  <-> emitted instances <> []
      /\ Id (pickFirst zeroInstance (emitted instances)) = id.
Proof.
  unfold receivesWraparound, appendsWraparound.
  rewrite scanAll_servers, scanAll_firstInst, andb_true_iff.
  rewrite String.eqb_eq, Nat.ltb_lt. split.
  - intros [Hlen Hid]. split; [|exact Hid].
    intros He. rewrite He in Hlen. simpl in Hlen. lia.
  - intros [Hne Hid]. split; [|exact Hid].
    destruct (pickFirst_in (emitted instances) zeroInstance eq_refl Hne)
      as [r [Hr Hrid]].
    assert (Hin : In r (filter (ownedBy id) (emitted instances))).
    { apply filter_In. split; [exact Hr|].
      unfold ownedBy. apply String.eqb_eq. congruence. }
    destruct (filter (ownedBy id) (emitted instances));
      [contradiction|simpl; lia].
Qed.

End Scan.

(** * Shape of the emitted ranges *)

Lemma uint32_small (z : Z) : 0 <= z <= MaxUint32 -> uint32 z = z.
Proof. unfold uint32, MaxUint32. intros H. apply Z.mod_small. lia. Qed.

Lemma uint32_range (z : Z) : is_uint32 (uint32 z).
Proof.
  unfold is_uint32, uint32, MaxUint32.
  pose proof (Z.mod_pos_bound z (2 ^ 32) ltac:(lia)). lia.
Qed.

Lemma chained_strict (rs : list InstanceWithTokenRange) :
  forall prev,
    -1 <= prev ->
    chained prev rs ->
    strictlyAscending (prev :: map MaxToken rs) ->
    Forall is_uint32 (map MaxToken rs) ->
    chainedPlain prev rs /\ Forall (fun r => MinToken r <= MaxToken r) rs.
Proof.
  unfold strictlyAscending.
  induction rs as [|r rs IH]; intros prev Hprev Hch Hs Hr; simpl in *.
  - split; [exact I|constructor].
  - destruct Hch as [Hmin Hch].
    inversion Hs as [|? ? Hs' Hlt]; subst.
    inversion Hlt as [|? ? Hlt1 _]; subst.
    inversion Hr as [|? ? Hr1 Hr']; subst. unfold is_uint32 in Hr1.
    rewrite uint32_small in Hmin by lia.
    destruct (IH (MaxToken r)) as [IH1 IH2]; auto; [lia|].
    split; [split; [exact Hmin|exact IH1]|].
    constructor; [lia|exact IH2].
Qed.

Lemma tokens_above_start (ts : list Z) :
  Forall is_uint32 ts -> strictlyAscending ts -> strictlyAscending (-1 :: ts).
Proof.
  unfold strictlyAscending. intros Hr Hs. constructor; [exact Hs|].
  eapply Forall_impl; [|exact Hr]. unfold is_uint32. intros t Ht. lia.
Qed.

Section Emitted.
Context {sorter : sort.Sorter} {heap : HeapMerge}.

Lemma emitted_strict (instances : list InstanceDesc) :
  NoDup (allTokens instances) ->
  strictlyAscending (map MaxToken (emitted instances)).
Proof.
  intros Hnd. apply le_NoDup_strict; [apply emitted_tokens_ascending|].
  eapply Permutation_NoDup;
    [apply Permutation_sym, emitted_tokens_perm|exact Hnd].
Qed.

Lemma emitted_plain (instances : list InstanceDesc) :
  tokensInRange instances ->
  NoDup (allTokens instances) ->
  chainedPlain (-1) (emitted instances)
  /\ Forall (fun r => MinToken r <= MaxToken r) (emitted instances).
Proof.
  intros Hwf Hnd. apply chained_strict.
  - lia.
  - apply emitted_chained.
  - apply tokens_above_start;
      [now apply emitted_in_range|now apply emitted_strict].
  - now apply emitted_in_range.
Qed.

Lemma emitted_first_min (instances : list InstanceDesc) :
  forall first rest,
    emitted instances = first :: rest ->
    MinToken first = 0
    /\ In (rangeOwner first) (tokenOwners instances)
    /\ (forall t, In t (allTokens instances) -> MaxToken first <= t).
Proof.
  intros first rest He.
  pose proof (emitted_chained instances) as Hch.
  pose proof (emitted_tokens_ascending instances) as Hs.
  pose proof (emitted_owners instances) as Hown.
  pose proof (emitted_tokens_perm instances) as Htok.
  rewrite He in *. simpl in *. destruct Hch as [Hmin _].
  split; [exact Hmin|]. split.
  - eapply Permutation_in; [exact Hown|now left].
  - intros t Ht. apply Permutation_sym in Htok.
    apply (Permutation_in _ Htok) in Ht.
    inversion Hs as [|? ? _ Hle]; subst.
    destruct Ht as [<-|Ht]; [lia|].
    rewrite Forall_forall in Hle. now apply Hle.
Qed.

Lemma emitted_nonempty (instances : list InstanceDesc) :
  allTokens instances <> [] -> emitted instances <> [].
Proof.
  intros Hne He. apply Hne.
  pose proof (emitted_tokens_perm instances) as Hp. rewrite He in Hp.
  now apply Permutation_nil in Hp.
Qed.

Lemma returned_in (id : string) (instances : list InstanceDesc) :
  forall r, In r (snd (GetInstancesWithTokenRanges id instances)) ->
            In r (emitted instances)
            \/ (MinToken r = uint32 (last (map MaxToken (emitted instances)) 0 + 1)
                /\ MaxToken r = MaxUint32).
Proof.
  intros r Hr. rewrite GetInstancesWithTokenRanges_ranges in Hr.
  apply in_app_or in Hr. destruct Hr as [Hr|Hr].
  - left. now apply filter_In in Hr.
  - right. destruct (receivesWraparound id instances); [|contradiction].
    destruct Hr as [<-|[]]. simpl. now rewrite scanAll_lastToken.
Qed.

End Emitted.

(** * Properties of the iterator *)

Lemma sharedToken_emitted {sorter : sort.Sorter} {heap : HeapMerge} :
  exists r1 r2,
    emitted sharedToken = [r1; r2]
    /\ MaxToken r1 = 5 /\ MaxToken r2 = 5 /\ MinToken r2 = 6.
Proof.
  pose proof (emitted_tokens_perm sharedToken) as Hp.
  pose proof (emitted_chained sharedToken) as Hch.
  change (allTokens sharedToken) with [5; 5] in Hp.
  apply Permutation_sym, Permutation_length_2_inv in Hp.
  assert (Ht : map MaxToken (emitted sharedToken) = [5; 5])
    by (destruct Hp; assumption).
  destruct (emitted sharedToken) as [|r1 [|r2 [|r3 rs]]]; try discriminate.
  injection Ht as H1 H2. exists r1, r2. simpl in Hch.
  destruct Hch as [_ [Hmin _]]. rewrite H1 in Hmin.
  repeat split; auto.
Qed.

(** C9.  When all tokens of the snapshot are pairwise distinct, every range
    the iterator yields, and every range [GetInstancesWithTokenRanges]
    returns, has [MinToken <= MaxToken].  Distinctness is needed: in a
    snapshot where two instances with different ids hold the same token, a
    range with [MinToken = MaxToken + 1] is yielded. *)
Theorem ranges_ordered_iff_tokens_distinct
        (sorter : sort.Sorter) (heap : HeapMerge) :
  (forall instances : list InstanceDesc,
      tokensInRange instances ->
      NoDup (allTokens instances) ->
      Forall (fun r => MinToken r <= MaxToken r) (emitted instances)
      /\ forall id,
          Forall (fun r => MinToken r <= MaxToken r)
                 (snd (GetInstancesWithTokenRanges id instances)))
  /\ (exists (instances : list InstanceDesc) (a b : InstanceDesc) (t : Z),
         tokensInRange instances
         /\ In a instances /\ In b instances /\ Id a <> Id b
         /\ In t (Tokens a) /\ In t (Tokens b)
         /\ exists r, In r (emitted instances)
                      /\ MinToken r = MaxToken r + 1).
Proof.
  split.
  - intros instances Hwf Hnd.
    destruct (emitted_plain instances Hwf Hnd) as [_ Hle].
    split; [exact Hle|]. intros id. apply Forall_forall. intros r Hr.
    apply returned_in in Hr. destruct Hr as [Hr|[Hmin Hmax]].
    + rewrite Forall_forall in Hle. now apply Hle.
    + rewrite Hmin, Hmax. apply uint32_range.
  - exists sharedToken, (mk "a" [5]), (mk "b" [5]), 5.
    destruct sharedToken_emitted as [r1 [r2 [He [H1 [H2 Hmin]]]]].
    repeat split.
    + repeat constructor; unfold MaxUint32; lia.
    + now left.
    + right. now left.
    + discriminate.
    + now left.
    + now left.
    + exists r2. split; [rewrite He; right; now left|lia].
Qed.

Lemma ranges_ordered_witness :
  Forall (fun r => MinToken r <= MaxToken r)
         (emitted scenarioB).
Proof.
  apply (proj1 (ranges_ordered_iff_tokens_distinct
                  insertionSorter extractMinMerge)
               scenarioB).
  - repeat constructor; unfold MaxUint32; lia.
  - repeat constructor; simpl; intuition lia.
Defined.

(** C7, what fails: two instances holding token 5 make the iterator yield
    5 twice, so the order is not strictly ascending. *)
Lemma merged_order_not_strict :
  ~ strictlyAscending (map MaxToken (emitted sharedToken)).
Proof.
  assert (E : map MaxToken (emitted sharedToken) = [5; 5])
    by (vm_compute; reflexivity).
  rewrite E. intros H.
  inversion H as [|? ? _ Hlt]; subst. inversion Hlt; subst. lia.
Qed.

(** C7, as the code has it.  The iterator yields one range per
    (token, owner) pair of the snapshot, none dropped and none collapsed, in
    non-decreasing token order, strictly ascending when all tokens are
    pairwise distinct.  The fold emits for each pair the range with
    [max = token] and that owner, and with
    [min = uint32 (prevBoundary + 1)]: 0 for the first range, and
    [prevBoundary + 1] without wrap-around throughout whenever the tokens
    are pairwise distinct. *)
Theorem iterator_yields_boundary_fold
        (sorter : sort.Sorter) (heap : HeapMerge)
        (instances : list InstanceDesc) :
  tokensInRange instances ->
  Permutation (map rangeOwner (emitted instances)) (tokenOwners instances)
  /\ length (emitted instances) = length (allTokens instances)
  /\ StronglySorted Z.le (map MaxToken (emitted instances))
  /\ chained (-1) (emitted instances)
  /\ (forall first rest, emitted instances = first :: rest -> MinToken first = 0)
  /\ (NoDup (allTokens instances) ->
      strictlyAscending (map MaxToken (emitted instances))
      /\ chainedPlain (-1) (emitted instances)).
Proof.
  intros Hwf. split; [apply emitted_owners|].
  split.
  { rewrite <- (length_map MaxToken).
    apply Permutation_length, emitted_tokens_perm. }
  split; [apply emitted_tokens_ascending|].
  split; [apply emitted_chained|].
  split.
  { intros first rest He. now destruct (emitted_first_min instances _ _ He). }
  intros Hnd. split; [now apply emitted_strict|].
  now destruct (emitted_plain instances Hwf Hnd).
Qed.

Lemma iterator_yields_boundary_fold_witness :
  Permutation
    (map rangeOwner (emitted scenarioB))
    (tokenOwners scenarioB).
Proof.
  apply (iterator_yields_boundary_fold insertionSorter extractMinMerge
                                       scenarioB).
  repeat constructor; unfold MaxUint32; lia.
Defined.

(** * The wraparound range *)

Section Wraparound.
Context {sorter : sort.Sorter} {heap : HeapMerge}.

Lemma wraparoundAppended_iff (id : string) (instances : list InstanceDesc) :
  wraparoundAppended id instances <-> receivesWraparound id instances = true.
Proof.
  unfold wraparoundAppended. rewrite GetInstancesWithTokenRanges_ranges.
  destruct (receivesWraparound id instances); split.
  - reflexivity.
  - intros _. eexists. split; reflexivity.
  - intros [w [H _]]. apply (f_equal (@length _)) in H.
    rewrite !length_app in H. simpl in H. lia.
  - discriminate.
Qed.

Lemma noWraparound_iff (id : string) (instances : list InstanceDesc) :
  noWraparound id instances <-> receivesWraparound id instances = false.
Proof.
  unfold noWraparound. rewrite GetInstancesWithTokenRanges_ranges.
  destruct (receivesWraparound id instances); split.
  - intros H. apply (f_equal (@length _)) in H.
    rewrite !length_app in H. simpl in H. lia.
  - discriminate.
  - reflexivity.
  - intros _. now rewrite app_nil_r.
Qed.

(** With non-empty ids [firstInst] is set once, by the first range. *)
Lemma wraparound_first_owner (id : string) (instances : list InstanceDesc) :
  Forall (fun inst => Id inst <> EmptyString) instances ->
  (wraparoundAppended id instances
   <-> exists first rest,
        emitted instances = first :: rest /\ Id (Instance first) = id).
Proof.
  intros Hids. rewrite wraparoundAppended_iff, receivesWraparound_iff.
  assert (Hne : forall r, In r (emitted instances) ->
                          Id (Instance r) <> EmptyString).
  { intros r Hr. apply emitted_ids in Hr. apply in_map_iff in Hr.
    destruct Hr as [inst [<- Hinst]].
    rewrite Forall_forall in Hids. now apply Hids. }
  destruct (emitted instances) as [|first rest].
  - split; [intros [Hc _]; now elim Hc|intros [f [r [H _]]]; discriminate].
  - rewrite pickFirst_head by (apply Hne; now left). split.
    + intros [_ Hid]. now exists first, rest.
    + intros [f [r [H Hid]]]. injection H as <- <-.
      split; [discriminate|exact Hid].
Qed.

End Wraparound.

Lemma emptyIdFirst_emitted {sorter : sort.Sorter} {heap : HeapMerge} :
  exists r1 r2,
    emitted emptyIdFirst = [r1; r2]
    /\ Id (Instance r1) = EmptyString /\ Id (Instance r2) = "b"%string.
Proof.
  pose proof (emitted_owners emptyIdFirst) as Hp.
  pose proof (emitted_tokens_ascending emptyIdFirst) as Hs.
  change (tokenOwners emptyIdFirst)
    with [(1, EmptyString); (5, "b"%string)] in Hp.
  apply Permutation_sym, Permutation_length_2_inv in Hp.
  destruct (emitted emptyIdFirst) as [|r1 [|r2 [|r3 rs]]];
    try (destruct Hp; discriminate).
  exists r1, r2. unfold rangeOwner in Hp. simpl in Hp, Hs.
  destruct Hp as [Hp|Hp]; injection Hp as H1 H2 H3 H4.
  - auto.
  - exfalso. inversion Hs as [|? ? _ Hle]; subst.
    inversion Hle; subst. lia.
Qed.

Section SmallestToken.
Context {sorter : sort.Sorter} {heap : HeapMerge}.

Lemma token_owner_in (instances : list InstanceDesc) (t : Z) (id : string) :
  In (t, id) (tokenOwners instances)
  <-> exists inst, In inst instances /\ Id inst = id /\ In t (Tokens inst).
Proof.
  unfold tokenOwners. rewrite in_flat_map. split.
  - intros [inst [Hinst Hin]]. apply in_map_iff in Hin.
    destruct Hin as [u [Heq Hu]]. injection Heq as -> <-. now exists inst.
  - intros [inst [Hinst [<- Ht]]]. exists inst. split; [exact Hinst|].
    apply in_map_iff. now exists t.
Qed.

(** The owner of the first range the iterator yields holds a globally
    smallest token. *)
Lemma first_owner_owns_smallest (instances : list InstanceDesc) :
  forall first rest,
    emitted instances = first :: rest ->
    ownsSmallestToken (Id (Instance first)) instances.
Proof.
  intros first rest He.
  destruct (emitted_first_min instances _ _ He) as [_ [Hown Hmin]].
  apply token_owner_in in Hown. destruct Hown as [inst [Hinst [Hid Ht]]].
  exists inst, (MaxToken first). auto.
Qed.

Lemma ownsSmallestToken_tokens (id : string) (instances : list InstanceDesc) :
  ownsSmallestToken id instances -> allTokens instances <> [].
Proof.
  intros [inst [t [Hinst [_ [Ht _]]]]] He.
  assert (H : In t (allTokens instances)).
  { unfold allTokens. apply in_flat_map. now exists inst. }
  rewrite He in H. contradiction.
Qed.

Lemma not_appended_noWraparound (id : string)
      (instances : list InstanceDesc) :
  ~ wraparoundAppended id instances -> noWraparound id instances.
Proof.
  intros H. apply noWraparound_iff.
  destruct (receivesWraparound id instances) eqn:E; [|reflexivity].
  exfalso. apply H. now apply wraparoundAppended_iff.
Qed.

Lemma emptyIdFirst_sentinel :
  ownsSmallestToken EmptyString emptyIdFirst
  /\ ~ ownsSmallestToken "b" emptyIdFirst
  /\ wraparoundAppended "b" emptyIdFirst.
Proof.
  split; [|split].
  - exists (mk "" [1]), 1. split; [now left|]. split; [reflexivity|].
    split; [now left|]. simpl. intuition lia.
  - intros [inst [t [Hinst [Hid [Ht Hmin]]]]].
    destruct Hinst as [<-|[<-|[]]]; [discriminate|].
    destruct Ht as [<-|[]]. specialize (Hmin 1). simpl in Hmin.
    assert (5 <= 1) by (apply Hmin; now left). lia.
  - apply wraparoundAppended_iff, receivesWraparound_iff.
    destruct emptyIdFirst_emitted as [r1 [r2 [He [H1 H2]]]].
    rewrite He. split; [discriminate|].
    simpl. rewrite H1. simpl. exact H2.
Qed.

Lemma sharedToken_first :
  (exists r1 r2, emitted sharedToken = [r1; r2]
                 /\ Id (Instance r1) = "a"%string)
  \/ (exists r1 r2, emitted sharedToken = [r1; r2]
                    /\ Id (Instance r1) = "b"%string).
Proof.
  pose proof (emitted_owners sharedToken) as Hp.
  change (tokenOwners sharedToken)
    with [(5, "a"%string); (5, "b"%string)] in Hp.
  apply Permutation_sym, Permutation_length_2_inv in Hp.
  destruct (emitted sharedToken) as [|r1 [|r2 [|r3 rs]]];
    try (destruct Hp; discriminate).
  unfold rangeOwner in Hp. simpl in Hp.
  destruct Hp as [Hp|Hp]; injection Hp as _ H1 _ _;
    [left|right]; exists r1, r2; auto.
Qed.

End SmallestToken.

(** C10, what fails: in [sharedToken] both ids are non-empty and both hold
    the globally smallest token 5, yet whichever pair the merge yields
    first, the call for one of the two ids gets no wraparound range. *)
Lemma wraparound_tie_leaves_an_owner_out :
  Forall (fun inst => Id inst <> EmptyString) sharedToken
  /\ ownsSmallestToken "a" sharedToken
  /\ ownsSmallestToken "b" sharedToken
  /\ forall (sorter : sort.Sorter) (heap : HeapMerge),
      noWraparound "a" sharedToken \/ noWraparound "b" sharedToken.
Proof.
  assert (Hids : Forall (fun inst => Id inst <> EmptyString) sharedToken)
    by (repeat constructor; discriminate).
  split; [exact Hids|]. split; [|split].
  - exists (mk "a" [5]), 5. split; [now left|]. split; [reflexivity|].
    split; [now left|]. simpl. intuition lia.
  - exists (mk "b" [5]), 5. split; [right; now left|]. split; [reflexivity|].
    split; [now left|]. simpl. intuition lia.
  - intros sorter heap.
    destruct sharedToken_first as [[r1 [r2 [He H1]]]|[r1 [r2 [He H1]]]];
      [right|left]; apply not_appended_noWraparound; intros Happ;
      apply (wraparound_first_owner _ _ Hids) in Happ;
      destruct Happ as [f [r [Hf Hid]]]; rewrite He in Hf;
      injection Hf as <- _; rewrite H1 in Hid; discriminate.
Qed.

(** C10, as the code has it.  [firstInst.Id == ""] serves as the test for
    "not yet set".  When every id of the snapshot is non-empty and the
    globally smallest token is held under one id only, the wraparound range
    is appended exactly when the requested id owns the globally smallest
    token.  In a snapshot where the owner of the globally smallest token has
    the empty id, the wraparound range is appended for an id that does not
    own that token. *)
Theorem wraparound_owner_without_tie
        (sorter : sort.Sorter) (heap : HeapMerge) :
  (forall (instances : list InstanceDesc) (id : string),
      Forall (fun inst => Id inst <> EmptyString) instances ->
      smallestTokenUnderOneId instances ->
      (wraparoundAppended id instances <-> ownsSmallestToken id instances))
  /\ (exists (instances : list InstanceDesc) (id : string),
         ownsSmallestToken EmptyString instances
         /\ ~ ownsSmallestToken id instances
         /\ wraparoundAppended id instances).
Proof.
  split.
  - intros instances id Hids Hone. split.
    + intros Happ. apply (wraparound_first_owner _ _ Hids) in Happ.
      destruct Happ as [first [rest [He <-]]].
      now apply (first_owner_owns_smallest instances first rest).
    + intros Hown.
      pose proof (emitted_nonempty instances
                    (ownsSmallestToken_tokens _ _ Hown)) as Hne.
      destruct (emitted instances) as [|first rest] eqn:He;
        [contradiction|].
      apply (wraparound_first_owner _ _ Hids). exists first, rest.
      split; [exact He|]. apply Hone; [|exact Hown].
      now apply (first_owner_owns_smallest instances first rest).
  - exists emptyIdFirst, "b"%string. apply emptyIdFirst_sentinel.
Qed.

Lemma wraparound_owner_without_tie_witness :
  wraparoundAppended "A" scenarioB <-> ownsSmallestToken "A" scenarioB.
Proof.
  apply (proj1 (wraparound_owner_without_tie
                  insertionSorter extractMinMerge) scenarioB "A"%string).
  - repeat constructor; discriminate.
  - assert (H : forall id, ownsSmallestToken id scenarioB -> id = "A"%string).
    { intros id [inst [t [Hinst [Hid [Ht Hmin]]]]].
      destruct Hinst as [<-|[<-|[]]]; [now symmetry|].
      destruct Ht as [<-|[]].
      assert (30 <= 10) by (apply Hmin; simpl; tauto). lia. }
    intros id1 id2 H1 H2. rewrite (H id1 H1), (H id2 H2). reflexivity.
Defined.

(** C6, what fails: in [emptyIdFirst] the instance with the empty id owns
    the globally smallest token 1, yet its call gets no wraparound range and
    the call for "b" gets one. *)
Lemma wraparound_not_for_least_token_owner :
  In (1, EmptyString) (tokenOwners emptyIdFirst)
  /\ (forall t, In t (allTokens emptyIdFirst) -> 1 <= t)
  /\ noWraparound "" emptyIdFirst
  /\ wraparoundAppended "b" emptyIdFirst.
Proof.
  split; [now left|]. split; [simpl; intuition lia|]. split.
  - apply noWraparound_iff. vm_compute. reflexivity.
  - apply wraparoundAppended_iff. vm_compute. reflexivity.
Qed.

(** C6, as the code has it.  In a snapshot that holds at least one token and
    whose ids are all non-empty, exactly one id receives the wraparound
    range: the id of the owner of the first range the iterator yields, whose
    token is the globally smallest one.  No other id receives it, whether or
    not it owns ranges. *)
Theorem single_wraparound_owner
        (sorter : sort.Sorter) (heap : HeapMerge)
        (instances : list InstanceDesc) :
  Forall (fun inst => Id inst <> EmptyString) instances ->
  allTokens instances <> [] ->
  exists first rest,
    emitted instances = first :: rest
    /\ In (rangeOwner first) (tokenOwners instances)
    /\ (forall t, In t (allTokens instances) -> MaxToken first <= t)
    /\ wraparoundAppended (Id (Instance first)) instances
    /\ (forall id, id <> Id (Instance first) -> noWraparound id instances).
Proof.
  intros Hids Htok.
  destruct (emitted instances) as [|first rest] eqn:He.
  { now apply emitted_nonempty in He. }
  exists first, rest. split; [reflexivity|].
  destruct (emitted_first_min instances _ _ He) as [_ [Hown Hmin]].
  split; [exact Hown|]. split; [exact Hmin|]. split.
  - apply wraparound_first_owner; [exact Hids|].
    exists first, rest. now split.
  - intros id Hid. apply noWraparound_iff.
    destruct (receivesWraparound id instances) eqn:E; [|reflexivity].
    apply wraparoundAppended_iff in E.
    apply wraparound_first_owner in E; [|exact Hids].
    destruct E as [f [r [H Hf]]]. rewrite He in H. injection H as <- <-.
    congruence.
Qed.

Lemma single_wraparound_owner_witness :
  exists first rest,
    emitted scenarioB = first :: rest
    /\ In (rangeOwner first) (tokenOwners scenarioB)
    /\ (forall t, In t (allTokens scenarioB) ->
                  MaxToken first <= t)
    /\ wraparoundAppended (Id (Instance first)) scenarioB
    /\ (forall id, id <> Id (Instance first) ->
                   noWraparound id scenarioB).
Proof.
  apply (single_wraparound_owner insertionSorter extractMinMerge).
  - repeat constructor; discriminate.
  - discriminate.
Defined.

(** C3.  [lastToken + 1] is computed in [uint32]: with the largest token
    equal to [math.MaxUint32] the wraparound range starts at 0 and spans the
    whole keyspace, which the first range already covers. *)
Theorem wraparound_min_wraps_to_zero :
  snd (GetInstancesWithTokenRanges "a" topToken)
  = [ {| Instance := mk "a" [4294967295];
         MinToken := 0; MaxToken := 4294967295 |};
      {| Instance := mk "a" [4294967295];
         MinToken := 0; MaxToken := MaxUint32 |} ]
  /\ overlapCount 0 (snd (GetInstancesWithTokenRanges "a" topToken)) = 2%nat.
Proof. split; vm_compute; reflexivity. Qed.

(** * Counting the ranges that cover a token *)

Lemma overlaps_iff (t : Z) (r : InstanceWithTokenRange) :
  overlaps t r = (MinToken r <=? t) && (t <=? MaxToken r).
Proof.
  unfold overlaps, InstanceWithTokenRange_Cmp.
  destruct (Z.ltb_spec t (MinToken r)), (Z.ltb_spec (MaxToken r) t),
    (Z.leb_spec (MinToken r) t), (Z.leb_spec t (MaxToken r));
    simpl; try reflexivity; lia.
Qed.

(** [Contains] holds exactly when some range covers the token. *)
Lemma Contains_overlapCount (rs : InstancesWithTokenRange) (t : Z) :
  Contains rs t = true <-> (0 < overlapCount t rs)%nat.
Proof.
  unfold Contains, overlapCount. fold (overlaps t).
  induction rs as [|r rs IH]; simpl.
  - split; [discriminate|lia].
  - destruct (overlaps t r); simpl; [split; [lia|reflexivity]|exact IH].
Qed.

(** The modelled [FingerprintBounds.Cmp] classifies like the [Cmp] of this
    package. *)
Lemma Cmp_agrees (r : InstanceWithTokenRange) (t : Z) :
  Cmp (NewBounds (MinToken r) (MaxToken r)) t = InstanceWithTokenRange_Cmp r t.
Proof. reflexivity. Qed.

Lemma overlapCount_app (t : Z) (rs1 rs2 : list InstanceWithTokenRange) :
  overlapCount t (rs1 ++ rs2) = (overlapCount t rs1 + overlapCount t rs2)%nat.
Proof. unfold overlapCount. now rewrite filter_app, length_app. Qed.

Lemma filter_perm {A : Type} (f : A -> bool) (l1 l2 : list A) :
  Permutation l1 l2 -> Permutation (filter f l1) (filter f l2).
Proof.
  induction 1 as [|x l1 l2 _ IH|x y l|l1 l2 l3 _ IH1 _ IH2]; simpl.
  - constructor.
  - destruct (f x); [now constructor|exact IH].
  - destruct (f x), (f y); try apply Permutation_refl. apply perm_swap.
  - now apply perm_trans with (filter f l2).
Qed.

Lemma overlapCount_perm (t : Z) (rs1 rs2 : list InstanceWithTokenRange) :
  Permutation rs1 rs2 -> overlapCount t rs1 = overlapCount t rs2.
Proof.
  intros H. unfold overlapCount. now apply Permutation_length, filter_perm.
Qed.

Lemma last_cons_default {A : Type} (a d : A) (l : list A) :
  last (a :: l) d = last l a.
Proof.
  destruct l as [|b l]; [reflexivity|].
  change (last (b :: l) d = last (b :: l) a). apply last_default. discriminate.
Qed.

Lemma last_ascending (ts : list Z) :
  forall prev, StronglySorted Z.le (prev :: ts) -> prev <= last ts prev.
Proof.
  induction ts as [|t ts IH]; intros prev Hs; simpl; [lia|].
  inversion Hs as [|? ? Hs' Hle]; subst. inversion Hle as [|? ? Hpt _]; subst.
  specialize (IH t Hs'). rewrite <- last_cons_default with (d := prev) in IH.
  simpl in IH. lia.
Qed.

(** A chain of ranges over non-decreasing tokens below the top of the
    keyspace covers each key above [prev] and up to the last token once. *)
Lemma chain_cover (t : Z) (rs : list InstanceWithTokenRange) :
  forall prev,
    -1 <= prev ->
    chained prev rs ->
    StronglySorted Z.le (prev :: map MaxToken rs) ->
    Forall (fun x => x < MaxUint32) (map MaxToken rs) ->
    overlapCount t rs
    = if (prev <? t) && (t <=? last (map MaxToken rs) prev) then 1%nat
      else 0%nat.
Proof.
  induction rs as [|r rs IH]; intros prev Hprev Hch Hs Hlt.
  - simpl. destruct (Z.ltb_spec prev t), (Z.leb_spec t prev);
      simpl; try reflexivity; lia.
  - simpl in Hch. destruct Hch as [Hmin Hch].
    inversion Hs as [|? ? Hs' Hle]; subst.
    inversion Hle as [|? ? Hpr _]; subst.
    inversion Hlt as [|? ? Hr Hlt']; subst.
    rewrite uint32_small in Hmin by lia.
    change (map MaxToken (r :: rs)) with (MaxToken r :: map MaxToken rs).
    rewrite last_cons_default.
    pose proof (last_ascending _ _ Hs') as Hlast.
    change (r :: rs) with ([r] ++ rs). rewrite overlapCount_app.
    rewrite (IH (MaxToken r)) by (auto; lia).
    unfold overlapCount. simpl. rewrite overlaps_iff, Hmin.
    destruct (Z.leb_spec (prev + 1) t), (Z.leb_spec t (MaxToken r)),
      (Z.ltb_spec (MaxToken r) t), (Z.ltb_spec prev t),
      (Z.leb_spec t (last (map MaxToken rs) (MaxToken r)));
      simpl; try reflexivity; lia.
Qed.

(** * The ranges of all ids together *)

Lemma filter_none {A : Type} (l : list A) : filter (fun _ => false) l = [].
Proof. induction l; simpl; auto. Qed.

Lemma filter_all {A : Type} (f : A -> bool) (l : list A) :
  (forall x, In x l -> f x = true) -> filter f l = l.
Proof.
  induction l as [|a l IH]; intros H; simpl; [reflexivity|].
  rewrite (H a) by now left. f_equal. apply IH. intros x Hx. apply H. now right.
Qed.

Lemma filter_disjoint_app {A : Type} (f g : A -> bool) (l : list A) :
  (forall x, f x = true -> g x = false) ->
  Permutation (filter f l ++ filter g l) (filter (fun x => f x || g x) l).
Proof.
  intros Hd. induction l as [|a l IH]; simpl; [constructor|].
  destruct (f a) eqn:Ef; simpl.
  - rewrite (Hd a Ef). now constructor.
  - destruct (g a); [|exact IH].
    eapply perm_trans; [apply Permutation_sym, Permutation_middle|].
    now constructor.
Qed.

Lemma flat_map_app_perm {A B : Type} (f g : A -> list B) (l : list A) :
  Permutation (flat_map (fun x => f x ++ g x) l)
              (flat_map f l ++ flat_map g l).
Proof.
  induction l as [|a l IH]; simpl; [constructor|].
  rewrite <- !app_assoc. apply Permutation_app_head.
  eapply perm_trans; [apply Permutation_app_head, IH|].
  rewrite !app_assoc. apply Permutation_app_tail, Permutation_app_comm.
Qed.

(** Filtering by owner, once per id, splits the ranges whose owner id is
    among [ids]. *)
Lemma owned_partition (rs : list InstanceWithTokenRange) (ids : list string) :
  NoDup ids ->
  Permutation
    (flat_map (fun id => filter (ownedBy id) rs) ids)
    (filter (fun r => existsb (String.eqb (Id (Instance r))) ids) rs).
Proof.
  induction ids as [|i ids IH]; intros Hnd; simpl.
  - now rewrite filter_none.
  - inversion Hnd as [|? ? Hnotin Hnd']; subst.
    eapply perm_trans; [apply Permutation_app_head, IH, Hnd'|].
    apply (filter_disjoint_app (ownedBy i)).
    intros r Hr. unfold ownedBy in Hr. apply String.eqb_eq in Hr.
    destruct (existsb (String.eqb (Id (Instance r))) ids) eqn:E;
      [|reflexivity].
    apply existsb_exists in E. destruct E as [j [Hj Heq]].
    apply String.eqb_eq in Heq. congruence.
Qed.

Lemma owned_all (rs : list InstanceWithTokenRange) (ids : list string) :
  NoDup ids ->
  (forall r, In r rs -> In (Id (Instance r)) ids) ->
  Permutation (flat_map (fun id => filter (ownedBy id) rs) ids) rs.
Proof.
  intros Hnd Hin. eapply perm_trans; [now apply owned_partition|].
  rewrite filter_all; [apply Permutation_refl|].
  intros r Hr. apply existsb_exists. exists (Id (Instance r)).
  split; [now apply Hin|apply String.eqb_refl].
Qed.

Lemma single_receiver {B : Type} (recv : string -> bool) (w : string -> B)
      (fid : string) (ids : list string) :
  (forall id, recv id = true <-> id = fid) ->
  NoDup ids ->
  flat_map (fun id => if recv id then [w id] else []) ids
  = if existsb (String.eqb fid) ids then [w fid] else [].
Proof.
  intros Hrecv. induction ids as [|i ids IH]; intros Hnd; simpl;
    [reflexivity|].
  inversion Hnd as [|? ? Hnotin Hnd']; subst. rewrite (IH Hnd').
  destruct (String.eqb_spec fid i) as [<-|Hne]; simpl.
  - rewrite (proj2 (Hrecv fid) eq_refl).
    destruct (existsb (String.eqb fid) ids) eqn:E; [|reflexivity].
    apply existsb_exists in E. destruct E as [j [Hj Heq]].
    apply String.eqb_eq in Heq. subst j. contradiction.
  - destruct (recv i) eqn:E; [|reflexivity].
    apply Hrecv in E. congruence.
Qed.

Lemma last_in {A : Type} (l : list A) (d : A) : l <> [] -> In (last l d) l.
Proof.
  induction l as [|a l IH]; intros Hne; [contradiction|].
  destruct l as [|b l]; [now left|].
  right. change (In (last (b :: l) d) (b :: l)). apply IH. discriminate.
Qed.

Section Coverage.
Context {sorter : sort.Sorter} {heap : HeapMerge}.

(** The ranges returned over all ids are the ranges of the iterator and
    one wraparound range. *)
Lemma allRanges_perm (instances : list InstanceDesc) :
  emitted instances <> [] ->
  exists w,
    Permutation (allRanges instances) (emitted instances ++ [w])
    /\ MinToken w = uint32 (last (map MaxToken (emitted instances)) 0 + 1)
    /\ MaxToken w = MaxUint32.
Proof.
  intros Hne.
  set (out := emitted instances) in *.
  set (fid := Id (pickFirst zeroInstance out)).
  set (wr := fun id =>
               wraparound (scanAll id out)
                          (hd (wraparound (scanAll id out)
                                          {| Instance := zeroInstance;
                                             MinToken := 0;
                                             MaxToken := 0 |})
                              (filter (ownedBy id) out))).
  assert (Hnd : NoDup (idsOf instances)) by apply NoDup_nodup.
  assert (Hids : forall id, In id (idsOf instances)
                            <-> In id (map Id instances))
    by (intros id; apply nodup_In).
  assert (Hrecv : forall id, receivesWraparound id instances = true
                             <-> id = fid).
  { intros id. rewrite receivesWraparound_iff. fold out. unfold fid.
    split; [intros [_ H]; now symmetry|intros ->; now split]. }
  assert (Hfid : In fid (idsOf instances)).
  { destruct (pickFirst_in out zeroInstance eq_refl Hne) as [r [Hr Hid]].
    unfold fid. rewrite Hid. apply Hids. now apply emitted_ids. }
  exists (wr fid). split; [|split].
  - unfold allRanges.
    set (F := fun id => filter (ownedBy id) out
                        ++ (if receivesWraparound id instances
                            then [wr id] else [])).
    rewrite (flat_map_ext _ F)
      by (intros id; apply GetInstancesWithTokenRanges_ranges).
    unfold F. eapply perm_trans; [apply flat_map_app_perm|].
    apply Permutation_app.
    + apply owned_all; [exact Hnd|].
      intros r Hr. apply Hids. now apply emitted_ids.
    + rewrite (single_receiver _ wr fid _ Hrecv Hnd).
      assert (E : existsb (String.eqb fid) (idsOf instances) = true).
      { apply existsb_exists. exists fid.
        split; [exact Hfid|apply String.eqb_refl]. }
      rewrite E. apply Permutation_refl.
  - unfold wr. simpl. now rewrite scanAll_lastToken.
  - reflexivity.
Qed.

End Coverage.

(** C1, what fails: with the largest token at [math.MaxUint32] key 0 lies in
    two returned ranges, and in a snapshot whose only instance holds no
    token it lies in none. *)
Lemma coverage_fails_at_top_and_without_tokens :
  (topToken <> [] /\ overlapCount 0 (allRanges topToken) = 2%nat)
  /\ (noTokens <> [] /\ overlapCount 0 (allRanges noTokens) = 0%nat).
Proof.
  split; (split; [discriminate|vm_compute; reflexivity]).
Qed.

(** C1, as the code has it.  For every snapshot that holds at least one
    token and whose tokens all lie below [math.MaxUint32], the ranges
    returned by [GetInstancesWithTokenRanges] over all ids present in the
    snapshot cover the keyspace exactly once: every key of [0, MaxUint32]
    lies in exactly one returned range, the wraparound segment above the
    largest token included. *)
Theorem multi_token_coverage
        (sorter : sort.Sorter) (heap : HeapMerge)
        (instances : list InstanceDesc) :
  tokensInRange instances ->
  allTokens instances <> [] ->
  Forall (fun t => t < MaxUint32) (allTokens instances) ->
  forall t, is_uint32 t -> overlapCount t (allRanges instances) = 1%nat.
Proof.
  intros Hwf Htok Hlt t [Ht0 Ht1].
  pose proof (emitted_nonempty instances Htok) as Hne.
  destruct (allRanges_perm instances Hne) as [w [Hp [Hmin Hmax]]].
  rewrite (overlapCount_perm _ _ _ Hp), overlapCount_app.
  pose proof (emitted_in_range instances Hwf) as Hr.
  assert (Hlt' : Forall (fun x => x < MaxUint32)
                        (map MaxToken (emitted instances))).
  { eapply Permutation_Forall;
      [apply Permutation_sym, emitted_tokens_perm|exact Hlt]. }
  assert (Hs : StronglySorted Z.le (-1 :: map MaxToken (emitted instances))).
  { constructor; [apply emitted_tokens_ascending|].
    eapply Forall_impl; [|exact Hr]. unfold is_uint32. intros x Hx. lia. }
  rewrite (chain_cover t _ (-1) ltac:(lia) (emitted_chained instances) Hs Hlt').
  assert (Hne' : map MaxToken (emitted instances) <> []).
  { intros E. apply map_eq_nil in E. contradiction. }
  rewrite (last_default _ (-1) 0 Hne').
  pose proof (last_in _ 0 Hne') as Hin.
  set (L := last (map MaxToken (emitted instances)) 0) in *.
  rewrite Forall_forall in Hr, Hlt'.
  specialize (Hr _ Hin). specialize (Hlt' _ Hin). unfold is_uint32 in Hr.
  rewrite uint32_small in Hmin by lia.
  unfold overlapCount. simpl. rewrite overlaps_iff, Hmin, Hmax.
  destruct (Z.ltb_spec (-1) t), (Z.leb_spec t L), (Z.leb_spec (L + 1) t),
    (Z.leb_spec t MaxUint32); simpl; try reflexivity; lia.
Qed.

Lemma multi_token_coverage_witness :
  overlapCount 40 (allRanges scenarioB) = 1%nat.
Proof.
  apply (multi_token_coverage insertionSorter extractMinMerge
                              scenarioB).
  - repeat constructor; unfold MaxUint32; lia.
  - discriminate.
  - repeat constructor; unfold MaxUint32; lia.
  - unfold is_uint32, MaxUint32. lia.
Defined.

(** * GetInstanceWithTokenRange *)

Lemma indexFrom_absent {A : Type} (f : A -> bool) (s : list A) :
  forall i, 0 <= i ->
            (slices.indexFrom i s f = -1 <-> Forall (fun a => f a = false) s).
Proof.
  induction s as [|a s IH]; intros i Hi; simpl.
  - split; [constructor|reflexivity].
  - destruct (f a) eqn:E.
    + split; [lia|]. intros H. inversion H; subst. congruence.
    + rewrite IH by lia. split; [now constructor|].
      intros H. now inversion H.
Qed.

Lemma indexFrom_found {A : Type} (f : A -> bool) (s : list A) :
  forall (i : Z) (k : nat) (a : A),
    nth_error s k = Some a ->
    f a = true ->
    (forall j b, (j < k)%nat -> nth_error s j = Some b -> f b = false) ->
    slices.indexFrom i s f = i + Z.of_nat k.
Proof.
  induction s as [|x s IH]; intros i k a Hk Ha Hbefore.
  - destruct k; discriminate.
  - destruct k as [|k]; simpl in *.
    + injection Hk as ->. rewrite Ha. lia.
    + rewrite (Hbefore 0%nat x) by (auto; lia).
      rewrite (IH (i + 1) k a Hk Ha); [lia|].
      intros j b Hj Hb. apply (Hbefore (S j) b); [lia|exact Hb].
Qed.

Lemma lessPanics_false (instances : list InstanceDesc) :
  Forall holdsToken instances -> lessPanics instances = false.
Proof.
  intros H. unfold lessPanics. apply andb_false_iff. right.
  induction H as [|inst l Hinst _ IH]; simpl; [reflexivity|].
  rewrite IH. unfold holdsToken in Hinst.
  destruct (Tokens inst); [contradiction|reflexivity].
Qed.

Lemma uint64_small (z : Z) : 0 <= z <= MaxUint64 -> uint64 z = z.
Proof. unfold uint64, MaxUint64. intros H. apply Z.mod_small. lia. Qed.

Lemma step_bounds (n : Z) :
  1 <= n <= MaxUint64 ->
  1 <= MaxUint64 / n /\ (MaxUint64 / n) * n <= MaxUint64.
Proof.
  intros Hn. split.
  - apply Z.div_le_lower_bound; lia.
  - rewrite Z.mul_comm. apply Z.mul_div_le. lia.
Qed.

Section SingleToken.
Context {sorter : sort.Sorter}.

Lemma byFirstToken_perm (instances : list InstanceDesc) :
  Permutation instances (byFirstToken instances).
Proof. apply sort.Slice_perm. Qed.

Lemma byFirstToken_ascending (instances : list InstanceDesc) :
  ascending firstToken (byFirstToken instances).
Proof. apply sort.Slice_ascending. reflexivity. Qed.

Lemma byFirstToken_length (instances : list InstanceDesc) :
  length (byFirstToken instances) = length instances.
Proof. symmetry. apply Permutation_length, byFirstToken_perm. Qed.

(** The call without the panic: after the sort, the index lookup decides
    between the error and a slot. *)
Lemma GetInstanceWithTokenRange_cases (id : string)
      (instances : list InstanceDesc) :
  Forall holdsToken instances ->
  let post := byFirstToken instances in
  let idx := slices.IndexFunc post (fun inst => String.eqb (Id inst) id) in
  (idx = -1
   /\ GetInstanceWithTokenRange id instances
      = Returns post (NewBounds 0 0, Some ErrInstanceNotFound))
  \/ (idx <> -1
      /\ exists b, GetInstanceWithTokenRange id instances
                   = Returns post (b, None)).
Proof.
  intros Hh post idx. unfold GetInstanceWithTokenRange.
  rewrite (lessPanics_false _ Hh). fold (byFirstToken instances).
  fold post. fold idx. destruct (Z.eqb_spec idx (-1)) as [E|E].
  - left. now split.
  - right. split; [exact E|]. eexists. reflexivity.
Qed.

Lemma IndexFunc_absent (id : string) (instances : list InstanceDesc) :
  slices.IndexFunc (byFirstToken instances)
                   (fun inst => String.eqb (Id inst) id) = -1
  <-> ~ In id (map Id instances).
Proof.
  unfold slices.IndexFunc. rewrite indexFrom_absent by lia.
  rewrite Forall_forall. split.
  - intros H Hin. apply in_map_iff in Hin. destruct Hin as [inst [Hid Hin]].
    apply (Permutation_in _ (byFirstToken_perm instances)) in Hin.
    specialize (H _ Hin). apply String.eqb_neq in H. contradiction.
  - intros H inst Hin. apply String.eqb_neq. intros Hid. apply H.
    apply in_map_iff. exists inst. split; [exact Hid|].
    eapply Permutation_in; [apply Permutation_sym, byFirstToken_perm|].
    exact Hin.
Qed.

(** The instance at ordinal [i] of the sorted order gets slot [i]. *)
Lemma call_at_ordinal (instances : list InstanceDesc) (i : nat)
      (inst : InstanceDesc) :
  Forall holdsToken instances ->
  Z.of_nat (length instances) <= MaxInt ->
  NoDup (map Id instances) ->
  nth_error (byFirstToken instances) i = Some inst ->
  GetInstanceWithTokenRange (Id inst) instances
  = Returns (byFirstToken instances)
            (slot (Z.of_nat (length instances)) (Z.of_nat i), None).
Proof.
  intros Hh Hlen Hnd Hnth. unfold GetInstanceWithTokenRange.
  rewrite (lessPanics_false _ Hh). fold (byFirstToken instances).
  set (post := byFirstToken instances) in *.
  assert (Hi : (i < length instances)%nat).
  { rewrite <- byFirstToken_length. apply nth_error_Some.
    fold post. congruence. }
  assert (Hnd' : NoDup (map Id post)).
  { eapply Permutation_NoDup; [|exact Hnd].
    apply Permutation_map, byFirstToken_perm. }
  assert (Hidx : slices.IndexFunc post
                   (fun x => String.eqb (Id x) (Id inst)) = Z.of_nat i).
  { unfold slices.IndexFunc.
    rewrite (indexFrom_found _ post 0 i inst Hnth (String.eqb_refl _));
      [lia|].
    intros j b Hj Hb. apply String.eqb_neq. intros Hid.
    assert (j = i); [|lia].
    apply (proj1 (NoDup_nth_error (map Id post)) Hnd').
    - rewrite length_map. apply nth_error_Some. congruence.
    - rewrite (map_nth_error Id _ _ Hb), (map_nth_error Id _ _ Hnth).
      now rewrite Hid. }
  assert (Hlp : length post = length instances)
    by apply byFirstToken_length.
  cbv zeta. rewrite Hidx, Hlp.
  set (n := Z.of_nat (length instances)) in *.
  assert (Hn : 1 <= n <= MaxUint64) by (unfold MaxInt, MaxUint64 in *; lia).
  destruct (step_bounds n Hn) as [Hstep Hmul].
  destruct (Z.eqb_spec (Z.of_nat i) (-1)) as [E|_]; [lia|].
  rewrite (uint64_small (Z.of_nat i)) by lia.
  rewrite (uint64_small n) by lia.
  rewrite (uint64_small (n - 1)) by lia.
  set (step := MaxUint64 / n) in *.
  assert (Hle : step * Z.of_nat i + step <= MaxUint64) by nia.
  rewrite (uint64_small (step * Z.of_nat i)) by nia.
  rewrite (uint64_small (step * Z.of_nat i + step)) by nia.
  rewrite (uint64_small (step * Z.of_nat i + step - 1)) by nia.
  unfold slot. fold step. rewrite (Z.mul_comm (Z.of_nat i) step).
  reflexivity.
Qed.

(** With pairwise distinct first tokens a call on the slice as an earlier
    call left it returns what the call on the original slice returns. *)
Lemma call_after_sort (id : string) (instances : list InstanceDesc) :
  Forall holdsToken instances ->
  NoDup (map firstToken instances) ->
  GetInstanceWithTokenRange id (byFirstToken instances)
  = GetInstanceWithTokenRange id instances.
Proof.
  intros Hh Hkeys.
  assert (Hh' : Forall holdsToken (byFirstToken instances))
    by (eapply Permutation_Forall; [apply byFirstToken_perm|exact Hh]).
  assert (Hpost : byFirstToken (byFirstToken instances)
                  = byFirstToken instances).
  { apply (ascending_perm_unique firstToken).
    - apply NoDup_map_eq.
      eapply Permutation_NoDup; [|exact Hkeys].
      apply Permutation_map.
      eapply perm_trans; apply byFirstToken_perm.
    - apply Permutation_sym, byFirstToken_perm.
    - apply byFirstToken_ascending.
    - apply byFirstToken_ascending. }
  unfold GetInstanceWithTokenRange.
  rewrite (lessPanics_false _ Hh), (lessPanics_false _ Hh').
  fold (byFirstToken (byFirstToken instances)).
  fold (byFirstToken instances). rewrite Hpost. reflexivity.
Qed.

End SingleToken.

Lemma map_by_position {A B : Type} (g : A -> B) (h : nat -> B) (l : list A) :
  forall s : nat,
    (forall k a, nth_error l k = Some a -> g a = h (s + k)%nat) ->
    map g l = map h (seq s (length l)).
Proof.
  induction l as [|x l IH]; intros s H; simpl; [reflexivity|].
  f_equal.
  - rewrite (H 0%nat x eq_refl). f_equal. lia.
  - apply IH. intros k a Hk. rewrite (H (S k) a Hk). f_equal. lia.
Qed.

(** In a strictly ascending slice the position of an element is the number
    of elements with a smaller key. *)
Lemma position_counts_smaller {A : Type} (key : A -> Z) (l : list A) :
  StronglySorted Z.lt (map key l) ->
  forall (i : nat) (a : A),
    nth_error l i = Some a ->
    length (filter (fun b => key b <? key a) l) = i.
Proof.
  induction l as [|x l IH]; intros Hs i a Hi.
  - destruct i; discriminate.
  - simpl in Hs. inversion Hs as [|? ? Hs' Hlt]; subst.
    rewrite Forall_forall in Hlt. destruct i as [|i]; simpl in *.
    + injection Hi as ->. rewrite Z.ltb_irrefl.
      rewrite (filter_ext_in _ (fun _ => false)), filter_none; [reflexivity|].
      intros b Hb. apply Z.ltb_ge.
      specialize (Hlt (key b) (in_map key _ _ Hb)). lia.
    + assert (Hxa : key x < key a).
      { apply Hlt, in_map. eapply nth_error_In. exact Hi. }
      apply Z.ltb_lt in Hxa. rewrite Hxa. simpl. f_equal. now apply IH.
Qed.

Lemma boundsOverlap_iff (t : Z) (b : FingerprintBounds) :
  boundsOverlap t b = (Min b <=? t) && (t <=? Max b).
Proof.
  unfold boundsOverlap, Cmp.
  destruct (Z.ltb_spec t (Min b)), (Z.ltb_spec (Max b) t),
    (Z.leb_spec (Min b) t), (Z.leb_spec t (Max b));
    simpl; try reflexivity; lia.
Qed.

Lemma boundsOverlapCount_app (t : Z) (bs1 bs2 : list FingerprintBounds) :
  boundsOverlapCount t (bs1 ++ bs2)
  = (boundsOverlapCount t bs1 + boundsOverlapCount t bs2)%nat.
Proof. unfold boundsOverlapCount. now rewrite filter_app, length_app. Qed.

(** The slots of the ordinals below [m], none of them the last one, cover
    the keys below [m * step] once. *)
Lemma slots_cover_prefix (n : nat) (t : Z) :
  1 <= Z.of_nat n <= MaxUint64 ->
  0 <= t ->
  forall m : nat,
    (m <= n - 1)%nat ->
    boundsOverlapCount
      t (map (fun k => slot (Z.of_nat n) (Z.of_nat k)) (seq 0 m))
    = if t <? Z.of_nat m * (MaxUint64 / Z.of_nat n) then 1%nat else 0%nat.
Proof.
  intros Hn Ht. destruct (step_bounds _ Hn) as [Hstep _].
  induction m as [|m IH]; intros Hm.
  - simpl. destruct (Z.ltb_spec t 0); [lia|reflexivity].
  - rewrite seq_S, map_app, boundsOverlapCount_app, IH by lia.
    set (step := MaxUint64 / Z.of_nat n) in *.
    replace (Z.of_nat (S m) * step) with (Z.of_nat m * step + step) by lia.
    unfold boundsOverlapCount. simpl. rewrite boundsOverlap_iff.
    unfold slot, NewBounds. simpl. fold step.
    destruct (Z.eqb_spec (Z.of_nat m) (Z.of_nat n - 1)) as [E|_]; [lia|].
    destruct (Z.ltb_spec t (Z.of_nat m * step)),
      (Z.leb_spec (Z.of_nat m * step) t),
      (Z.leb_spec t (Z.of_nat m * step + step - 1)),
      (Z.ltb_spec t (Z.of_nat m * step + step));
      simpl; try reflexivity; lia.
Qed.

Lemma slots_cover (n : nat) (t : Z) :
  1 <= Z.of_nat n <= MaxUint64 ->
  is_uint64 t ->
  boundsOverlapCount
    t (map (fun k => slot (Z.of_nat n) (Z.of_nat k)) (seq 0 n)) = 1%nat.
Proof.
  intros Hn [Ht0 Ht1]. destruct n as [|m]; [simpl in Hn; lia|].
  rewrite seq_S, map_app, boundsOverlapCount_app.
  rewrite (slots_cover_prefix (S m) t Hn Ht0 m) by lia.
  assert (HN : Z.of_nat (S m) = Z.of_nat m + 1) by lia.
  set (N := Z.of_nat (S m)) in *. clearbody N. set (step := MaxUint64 / N).
  unfold boundsOverlapCount. simpl. rewrite boundsOverlap_iff.
  unfold slot, NewBounds. simpl. fold step.
  destruct (Z.eqb_spec (Z.of_nat m) (N - 1)) as [_|E]; [|lia].
  destruct (Z.ltb_spec t (Z.of_nat m * step)),
    (Z.leb_spec (Z.of_nat m * step) t),
    (Z.leb_spec t MaxUint64); simpl; try reflexivity; lia.
Qed.

(** * Properties of the two partitioners *)

(** C8.  On a snapshot whose instances hold a token, the single-token
    partitioner returns [ErrInstanceNotFound] exactly when the requested id
    is absent, the empty snapshot included, and returns a range without
    error otherwise.  The multi-token partitioner has no error result: for
    an absent id it returns the empty list. *)
Theorem not_found_asymmetry (sorter : sort.Sorter) (heap : HeapMerge) :
  (forall (id : string) (instances : list InstanceDesc),
      Forall holdsToken instances ->
      ((exists post b,
           GetInstanceWithTokenRange id instances
           = Returns post (b, Some ErrInstanceNotFound))
       <-> ~ In id (map Id instances))
      /\ (In id (map Id instances) ->
          exists post b,
            GetInstanceWithTokenRange id instances = Returns post (b, None)))
  /\ (forall id : string,
         GetInstanceWithTokenRange id []
         = Returns [] (NewBounds 0 0, Some ErrInstanceNotFound))
  /\ (forall (id : string) (instances : list InstanceDesc),
         ~ In id (map Id instances) ->
         snd (GetInstancesWithTokenRanges id instances) = []).
Proof.
  split; [|split].
  - intros id instances Hh.
    pose proof (IndexFunc_absent id instances) as Habs.
    destruct (GetInstanceWithTokenRange_cases id instances Hh)
      as [[Hidx Hcall]|[Hidx [b Hcall]]]; rewrite Hcall.
    + split; [split|].
      * intros _. now apply Habs.
      * intros _. eexists. eexists. reflexivity.
      * intros Hin. apply Habs in Hidx. contradiction.
    + split; [split|].
      * intros [post [b' H]]. discriminate.
      * intros Hout. apply Habs in Hout. contradiction.
      * intros _. eexists. eexists. reflexivity.
  - intros id.
    destruct (GetInstanceWithTokenRange_cases id [] (Forall_nil _))
      as [[_ Hcall]|[Hidx _]].
    + rewrite Hcall. f_equal.
      apply Permutation_nil, (byFirstToken_perm []).
    + exfalso. apply Hidx. apply IndexFunc_absent. simpl. tauto.
  - intros id instances Hout.
    assert (Hnone : filter (ownedBy id) (emitted instances) = []).
    { rewrite (filter_ext_in _ (fun _ => false)); [apply filter_none|].
      intros r Hr. unfold ownedBy. apply String.eqb_neq. intros Hid.
      apply Hout. rewrite <- Hid. now apply emitted_ids. }
    rewrite GetInstancesWithTokenRanges_ranges.
    unfold receivesWraparound, appendsWraparound.
    rewrite scanAll_servers, Hnone. reflexivity.
Qed.

Lemma not_found_witness :
  (exists post b,
      GetInstanceWithTokenRange "d" scenarioA
      = Returns post (b, Some ErrInstanceNotFound))
  <-> ~ In "d"%string (map Id scenarioA).
Proof.
  apply (proj1 (not_found_asymmetry insertionSorter extractMinMerge)
               "d"%string scenarioA).
  repeat constructor; discriminate.
Defined.

(** C5.  In a snapshot of [n] instances that each hold a token, the
    requested id found at ordinal [i] of the ascending-by-first-token order
    gets the range [[i*step, i*step + step - 1]] with
    [step = MaxUint64 / n]; for the last ordinal the upper bound is
    [MaxUint64].  With pairwise distinct first tokens the ordinal is the
    number of instances with a smaller first token. *)
Theorem single_token_slot (sorter : sort.Sorter)
        (id : string) (instances : list InstanceDesc)
        (i : nat) (inst : InstanceDesc) :
  Forall holdsToken instances ->
  Z.of_nat (length instances) <= MaxInt ->
  NoDup (map Id instances) ->
  nth_error (byFirstToken instances) i = Some inst ->
  Id inst = id ->
  let n := Z.of_nat (length instances) in
  let step := MaxUint64 / n in
  Permutation instances (byFirstToken instances)
  /\ ascending firstToken (byFirstToken instances)
  /\ GetInstanceWithTokenRange id instances
     = Returns (byFirstToken instances)
               (NewBounds (Z.of_nat i * step)
                          (if Z.of_nat i =? n - 1 then MaxUint64
                           else Z.of_nat i * step + step - 1),
                None)
  /\ (NoDup (map firstToken instances) ->
      length (filter (fun other => firstToken other <? firstToken inst)
                     instances) = i).
Proof.
  intros Hh Hlen Hnd Hnth Hid n step.
  split; [apply byFirstToken_perm|].
  split; [apply byFirstToken_ascending|]. split.
  - rewrite <- Hid. now apply call_at_ordinal.
  - intros Hkeys.
    rewrite (Permutation_length
               (filter_perm _ _ _ (byFirstToken_perm instances))).
    apply position_counts_smaller; [|exact Hnth].
    apply le_NoDup_strict.
    + apply (proj1 (ascending_map firstToken _)), byFirstToken_ascending.
    + eapply Permutation_NoDup; [|exact Hkeys].
      apply Permutation_map, byFirstToken_perm.
Qed.

Lemma single_token_slot_witness :
  GetInstanceWithTokenRange "b" scenarioA
  = Returns (byFirstToken scenarioA)
            (NewBounds (1 * (MaxUint64 / 3))
                       (1 * (MaxUint64 / 3) + MaxUint64 / 3 - 1), None).
Proof.
  apply (single_token_slot insertionSorter "b"%string scenarioA 1
                           (mk "b" [7])).
  - repeat constructor; discriminate.
  - unfold MaxInt. simpl. lia.
  - repeat constructor; simpl; intuition discriminate.
  - reflexivity.
  - reflexivity.
Defined.

(** C2.  For a snapshot of [n >= 1] instances with unique ids that each
    hold a token, the [n] calls of [GetInstanceWithTokenRange], one per id,
    all succeed; the range of the first ordinal starts at 0, the range of
    the last ordinal ends at [MaxUint64], and every key of
    [[0, MaxUint64]] is classified [Overlap] by exactly one of the [n]
    ranges.  The [n] calls are made on the same snapshot; with pairwise
    distinct first tokens a call on the slice as an earlier call sorted it
    returns the same. *)
Theorem single_token_complete (sorter : sort.Sorter)
        (instances : list InstanceDesc) :
  instances <> [] ->
  Forall holdsToken instances ->
  Z.of_nat (length instances) <= MaxInt ->
  NoDup (map Id instances) ->
  exists (bs : list FingerprintBounds) (first last : InstanceDesc)
         (bfirst blast : FingerprintBounds),
    Permutation
      (map (fun inst => GetInstanceWithTokenRange (Id inst) instances)
           instances)
      (map (fun b => Returns (byFirstToken instances) (b, None)) bs)
    /\ length bs = length instances
    /\ nth_error (byFirstToken instances) 0 = Some first
    /\ GetInstanceWithTokenRange (Id first) instances
       = Returns (byFirstToken instances) (bfirst, None)
    /\ Min bfirst = 0
    /\ nth_error (byFirstToken instances) (length instances - 1) = Some last
    /\ GetInstanceWithTokenRange (Id last) instances
       = Returns (byFirstToken instances) (blast, None)
    /\ Max blast = MaxUint64
    /\ (forall t, is_uint64 t -> boundsOverlapCount t bs = 1%nat)
    /\ (NoDup (map firstToken instances) ->
        forall id, GetInstanceWithTokenRange id (byFirstToken instances)
                   = GetInstanceWithTokenRange id instances).
Proof.
  intros Hne Hh Hlen Hnd.
  set (post := byFirstToken instances).
  set (n := length instances).
  assert (Hlp : length post = n) by apply byFirstToken_length.
  assert (Hn : (1 <= n)%nat).
  { unfold n. destruct instances; [contradiction|simpl; lia]. }
  assert (Hcall : forall k inst,
             nth_error post k = Some inst ->
             GetInstanceWithTokenRange (Id inst) instances
             = Returns post (slot (Z.of_nat n) (Z.of_nat k), None)).
  { intros k inst Hk. now apply call_at_ordinal. }
  destruct (nth_error post 0) as [first|] eqn:Hfirst;
    [|apply nth_error_None in Hfirst; lia].
  destruct (nth_error post (n - 1)) as [last|] eqn:Hlast;
    [|apply nth_error_None in Hlast; lia].
  exists (map (fun k => slot (Z.of_nat n) (Z.of_nat k)) (seq 0 n)),
    first, last, (slot (Z.of_nat n) 0), (slot (Z.of_nat n) (Z.of_nat (n - 1))).
  split; [|split; [|split; [|split; [|split; [|split; [|split; [|split;
    [|split]]]]]]]].
  - eapply perm_trans;
      [apply Permutation_map, (byFirstToken_perm instances)|].
    fold post. rewrite map_map, <- Hlp.
    rewrite (map_by_position
               (fun inst => GetInstanceWithTokenRange (Id inst) instances)
               (fun k => Returns post
                           (slot (Z.of_nat (length post)) (Z.of_nat k), None))
               post 0); [apply Permutation_refl|].
    intros k a Hk. rewrite Hlp. now apply Hcall.
  - now rewrite length_map, length_seq.
  - reflexivity.
  - now apply (Hcall 0%nat).
  - reflexivity.
  - reflexivity.
  - now apply Hcall.
  - unfold slot, NewBounds. simpl Max.
    replace (Z.of_nat (n - 1)) with (Z.of_nat n - 1) by lia.
    now rewrite Z.eqb_refl.
  - intros t Ht. apply slots_cover; [|exact Ht].
    fold n in Hlen. unfold MaxInt, MaxUint64 in *. lia.
  - intros Hkeys id. now apply call_after_sort.
Qed.

Lemma single_token_complete_witness :
  exists (bs : list FingerprintBounds) (first last : InstanceDesc)
         (bfirst blast : FingerprintBounds),
    Permutation
      (map (fun inst => GetInstanceWithTokenRange (Id inst) scenarioA)
           scenarioA)
      (map (fun b => Returns (byFirstToken scenarioA) (b, None)) bs)
    /\ length bs = length scenarioA
    /\ nth_error (byFirstToken scenarioA) 0 = Some first
    /\ GetInstanceWithTokenRange (Id first) scenarioA
       = Returns (byFirstToken scenarioA) (bfirst, None)
    /\ Min bfirst = 0
    /\ nth_error (byFirstToken scenarioA) (length scenarioA - 1) = Some last
    /\ GetInstanceWithTokenRange (Id last) scenarioA
       = Returns (byFirstToken scenarioA) (blast, None)
    /\ Max blast = MaxUint64
    /\ (forall t, is_uint64 t -> boundsOverlapCount t bs = 1%nat)
    /\ (NoDup (map firstToken scenarioA) ->
        forall id, GetInstanceWithTokenRange id (byFirstToken scenarioA)
                   = GetInstanceWithTokenRange id scenarioA).
Proof.
  apply (single_token_complete insertionSorter scenarioA).
  - discriminate.
  - repeat constructor; discriminate.
  - unfold MaxInt. simpl. lia.
  - repeat constructor; simpl; intuition discriminate.
Defined.

(** * The caller's snapshot after a call *)

(** C4, what fails: after [GetInstanceWithTokenRange] the caller's
    instances slice is reordered, and after [NewInstanceSortMergeIterator]
    or [GetInstancesWithTokenRanges] the caller's [Tokens] slice is. *)
Lemma snapshot_is_sorted_in_place :
  (exists r, GetInstanceWithTokenRange "a" unsortedInstances
             = Returns [mk "a" [3]; mk "b" [7]] r)
  /\ [mk "a" [3]; mk "b" [7]] <> unsortedInstances
  /\ fst (NewInstanceSortMergeIterator unsortedTokens) = [mk "a" [10; 50]]
  /\ fst (GetInstancesWithTokenRanges "a" unsortedTokens) = [mk "a" [10; 50]]
  /\ [mk "a" [10; 50]] <> unsortedTokens.
Proof.
  split; [eexists; vm_compute; reflexivity|].
  split; [discriminate|].
  split; [vm_compute; reflexivity|].
  split; [vm_compute; reflexivity|discriminate].
Qed.

(** C4, as the code has it.  Both partitioners sort the caller's slices in
    place.  After a call of [GetInstanceWithTokenRange] that returns, the
    instances slice holds the same instances in ascending order of first
    token; a slice that was strictly ascending already is unchanged.  After
    [NewInstanceSortMergeIterator], and so after
    [GetInstancesWithTokenRanges], the instances are in their order with the
    same ids, and each [Tokens] slice holds the same tokens in ascending
    order; [Tokens] slices that were ascending already are unchanged. *)
Theorem slices_sorted_in_place (sorter : sort.Sorter) (heap : HeapMerge)
        (id : string) (instances : list InstanceDesc) :
  (forall post r,
      GetInstanceWithTokenRange id instances = Returns post r ->
      Permutation instances post /\ ascending firstToken post)
  /\ (Forall holdsToken instances ->
      strictlyAscending (map firstToken instances) ->
      exists r, GetInstanceWithTokenRange id instances = Returns instances r)
  /\ Forall2 (fun before after =>
                Id after = Id before
                /\ Permutation (Tokens before) (Tokens after)
                /\ ascending (fun t => t) (Tokens after))
             instances (fst (NewInstanceSortMergeIterator instances))
  /\ fst (GetInstancesWithTokenRanges id instances)
     = fst (NewInstanceSortMergeIterator instances)
  /\ (Forall (fun inst => ascending (fun t => t) (Tokens inst)) instances ->
      fst (NewInstanceSortMergeIterator instances) = instances).
Proof.
  split; [|split; [|split; [|split]]].
  - intros post r. unfold GetInstanceWithTokenRange.
    destruct (lessPanics instances); [discriminate|].
    fold (byFirstToken instances).
    destruct (slices.IndexFunc _ _ =? -1); intros H; injection H as <- _;
      (split; [apply byFirstToken_perm|apply byFirstToken_ascending]).
  - intros Hh Hs.
    assert (Hpost : byFirstToken instances = instances).
    { pose proof (strict_NoDup _ Hs) as Hnd.
      apply (ascending_perm_unique firstToken).
      - apply NoDup_map_eq. eapply Permutation_NoDup; [|exact Hnd].
        apply Permutation_map, byFirstToken_perm.
      - apply Permutation_sym, byFirstToken_perm.
      - apply byFirstToken_ascending.
      - apply ascending_map. now apply strict_le. }
    destruct (GetInstanceWithTokenRange_cases id instances Hh)
      as [[_ Hcall]|[_ [b Hcall]]]; rewrite Hcall, Hpost; eexists; reflexivity.
  - rewrite NewInstanceSortMergeIterator_eq. simpl.
    induction instances as [|inst l IH]; simpl; constructor; [|exact IH].
    split; [reflexivity|].
    split; [apply sortTokens_perm|apply sortTokens_ascending].
  - rewrite GetInstancesWithTokenRanges_post.
    now rewrite NewInstanceSortMergeIterator_eq.
  - intros Hs. rewrite NewInstanceSortMergeIterator_eq. simpl.
    induction Hs as [|inst l Hinst _ IH]; simpl; [reflexivity|].
    rewrite IH. f_equal. destruct inst as [i ts]. unfold sortTokens. simpl.
    f_equal. apply sorted_tokens_unique.
    + apply Permutation_sym, sort.Slice_perm.
    + apply sort.Slice_ascending. reflexivity.
    + exact Hinst.
Qed.

Lemma slices_sorted_in_place_witness :
  Permutation unsortedInstances [mk "a" [3]; mk "b" [7]]
  /\ ascending firstToken [mk "a" [3]; mk "b" [7]].
Proof.
  apply (proj1 (slices_sorted_in_place insertionSorter extractMinMerge
                                       "a"%string unsortedInstances)
               [mk "a" [3]; mk "b" [7]]
               (NewBounds 0 (MaxUint64 / 2 - 1), None)).
  vm_compute. reflexivity.
Defined.

(** * Further properties of Cmp and Contains *)

(** X1.  [Cmp] is monotone in the token: along the keyspace a range
    classifies tokens as [Before], then [Overlap], then [After], also when
    its bounds are inverted. *)
Theorem Cmp_monotone (r : InstanceWithTokenRange) (t1 t2 : Z) :
  t1 <= t2 ->
  BoundsCheck_rank (InstanceWithTokenRange_Cmp r t1)
  <= BoundsCheck_rank (InstanceWithTokenRange_Cmp r t2).
Proof.
  intros Hle. unfold InstanceWithTokenRange_Cmp.
  destruct (Z.ltb_spec t1 (MinToken r)), (Z.ltb_spec (MaxToken r) t1),
    (Z.ltb_spec t2 (MinToken r)), (Z.ltb_spec (MaxToken r) t2);
    simpl; lia.
Qed.

Lemma Cmp_monotone_witness :
  BoundsCheck_rank
    (InstanceWithTokenRange_Cmp
       {| Instance := mk "a" [30]; MinToken := 11; MaxToken := 30 |} 5)
  <= BoundsCheck_rank
       (InstanceWithTokenRange_Cmp
          {| Instance := mk "a" [30]; MinToken := 11; MaxToken := 30 |} 20).
Proof. apply Cmp_monotone. lia. Defined.

(** X2.  [Contains] holds exactly when the token lies within the bounds of
    one of the ranges; in particular it is [false] on the empty list and on
    ranges with inverted bounds. *)
Theorem Contains_iff (rs : InstancesWithTokenRange) (t : Z) :
  Contains rs t = true
  <-> exists r, In r rs /\ MinToken r <= t <= MaxToken r.
Proof.
  unfold Contains. rewrite existsb_exists. split.
  - intros [r [Hr Ho]]. exists r. split; [exact Hr|].
    fold (overlaps t r) in Ho. rewrite overlaps_iff in Ho.
    apply andb_true_iff in Ho. destruct Ho as [H1 H2].
    apply Z.leb_le in H1. apply Z.leb_le in H2. lia.
  - intros [r [Hr Hb]]. exists r. split; [exact Hr|].
    fold (overlaps t r). rewrite overlaps_iff.
    apply andb_true_iff. split; apply Z.leb_le; lia.
Qed.

(** * Further properties of GetInstancesWithTokenRanges *)

Lemma sortTokens_twice {sorter : sort.Sorter} (inst : InstanceDesc) :
  sortTokens (sortTokens inst) = sortTokens inst.
Proof.
  pose proof (sortTokens_ascending inst) as Hs.
  pose proof (sortTokens_perm (sortTokens inst)) as Hp.
  pose proof (sortTokens_ascending (sortTokens inst)) as Hs'.
  destruct (sortTokens inst) as [i ts]. unfold sortTokens in *. simpl in *.
  f_equal. apply sorted_tokens_unique; [now apply Permutation_sym| |];
    assumption.
Qed.

Lemma appendsWraparound_owned (id : string)
      (it : list InstanceWithTokenRange) :
  appendsWraparound id (scanAll id it) = true ->
  exists first rest, filter (ownedBy id) it = first :: rest.
Proof.
  unfold appendsWraparound. rewrite scanAll_servers.
  intros H. apply andb_true_iff in H. destruct H as [H _].
  apply Nat.ltb_lt in H.
  destruct (filter (ownedBy id) it) as [|first rest];
    [simpl in H; lia|now exists first, rest].
Qed.

Section MultiTokenExtras.
Context {sorter : sort.Sorter} {heap : HeapMerge}.

Lemma filter_owned_id (id : string) (it : list InstanceWithTokenRange) :
  Forall (fun r => Id (Instance r) = id) (filter (ownedBy id) it).
Proof.
  apply Forall_forall. intros r Hr. apply filter_In in Hr.
  destruct Hr as [_ Hr]. now apply String.eqb_eq in Hr.
Qed.

(** The returned list, with the wraparound range spelled out. *)
Lemma returned_shape (id : string) (instances : list InstanceDesc) :
  (receivesWraparound id instances = false
   /\ snd (GetInstancesWithTokenRanges id instances)
      = filter (ownedBy id) (emitted instances))
  \/ (receivesWraparound id instances = true
      /\ exists first rest w,
          filter (ownedBy id) (emitted instances) = first :: rest
          /\ snd (GetInstancesWithTokenRanges id instances)
             = (first :: rest) ++ [w]
          /\ Instance w = Instance first
          /\ MinToken w
             = uint32 (last (map MaxToken (emitted instances)) 0 + 1)
          /\ MaxToken w = MaxUint32).
Proof.
  rewrite GetInstancesWithTokenRanges_ranges.
  destruct (receivesWraparound id instances) eqn:E.
  - right. split; [reflexivity|].
    destruct (appendsWraparound_owned id _ E) as [first [rest Hf]].
    rewrite Hf. simpl hd. exists first, rest.
    eexists. split; [reflexivity|]. split; [reflexivity|].
    split; [reflexivity|]. split; [|reflexivity].
    simpl. now rewrite scanAll_lastToken.
  - left. split; [reflexivity|apply app_nil_r].
Qed.

Lemma owned_tokens (id : string) (instances : list InstanceDesc) :
  Permutation (map MaxToken (filter (ownedBy id) (emitted instances)))
              (tokensOf id instances).
Proof.
  assert (H2 : map fst (filter (fun p => String.eqb (snd p) id)
                               (tokenOwners instances))
               = tokensOf id instances).
  { unfold tokenOwners, tokensOf.
    induction instances as [|inst l IH]; simpl; [reflexivity|].
    rewrite filter_app, map_app, IH.
    destruct (String.eqb (Id inst) id) eqn:E; simpl.
    - f_equal. rewrite filter_all, map_map, map_id; [reflexivity|].
      intros p Hp. apply in_map_iff in Hp. destruct Hp as [t [<- _]].
      exact E.
    - rewrite (filter_ext_in _ (fun _ => false)), filter_none; [reflexivity|].
      intros p Hp. apply in_map_iff in Hp. destruct Hp as [t [<- _]].
      exact E. }
  assert (H1 : map MaxToken (filter (ownedBy id) (emitted instances))
               = map fst (filter (fun p => String.eqb (snd p) id)
                                 (map rangeOwner (emitted instances)))).
  { generalize (emitted instances). intros rs.
    induction rs as [|r rs IH]; simpl; [reflexivity|].
    unfold ownedBy at 1.
    destruct (String.eqb (Id (Instance r)) id); simpl; rewrite IH;
      reflexivity. }
  rewrite H1, <- H2. apply Permutation_map, filter_perm, emitted_owners.
Qed.

End MultiTokenExtras.

(** X3.  Every range returned for [id] carries an instance with that id,
    the appended wraparound range included. *)
Theorem returned_ranges_owned_by_id
        (sorter : sort.Sorter) (heap : HeapMerge)
        (id : string) (instances : list InstanceDesc) :
  Forall (fun r => Id (Instance r) = id)
         (snd (GetInstancesWithTokenRanges id instances)).
Proof.
  pose proof (filter_owned_id id (emitted instances)) as Hown.
  destruct (returned_shape id instances)
    as [[_ Heq]|[_ [first [rest [w [Hf [Heq [Hw _]]]]]]]]; rewrite Heq.
  - exact Hown.
  - rewrite Hf in Hown. apply Forall_app. split; [exact Hown|].
    constructor; [|constructor]. rewrite Hw.
    now inversion Hown.
Qed.

(** X4.  An id whose instances hold no token gets the empty list: no range
    and no wraparound range, whether or not the id is in the snapshot. *)
Theorem no_tokens_no_ranges
        (sorter : sort.Sorter) (heap : HeapMerge)
        (id : string) (instances : list InstanceDesc) :
  tokensOf id instances = [] ->
  snd (GetInstancesWithTokenRanges id instances) = [].
Proof.
  intros Hnone.
  pose proof (owned_tokens id instances) as Hp. rewrite Hnone in Hp.
  apply Permutation_sym, Permutation_nil, map_eq_nil in Hp.
  rewrite GetInstancesWithTokenRanges_ranges.
  unfold receivesWraparound, appendsWraparound.
  rewrite scanAll_servers, Hp. reflexivity.
Qed.

Lemma no_tokens_no_ranges_witness :
  snd (GetInstancesWithTokenRanges "c" [mk "A" [50; 10]; mk "c" []]) = [].
Proof.
  apply (no_tokens_no_ranges insertionSorter extractMinMerge).
  reflexivity.
Defined.

(** X5.  The call returns one range per token held under [id], and one
    more when the wraparound range is appended. *)
Theorem returned_length
        (sorter : sort.Sorter) (heap : HeapMerge)
        (id : string) (instances : list InstanceDesc) :
  (wraparoundAppended id instances ->
   length (snd (GetInstancesWithTokenRanges id instances))
   = S (length (tokensOf id instances)))
  /\ (noWraparound id instances ->
      length (snd (GetInstancesWithTokenRanges id instances))
      = length (tokensOf id instances)).
Proof.
  pose proof (Permutation_length (owned_tokens id instances)) as Hlen.
  rewrite length_map in Hlen. split.
  - intros [w [Heq _]]. rewrite Heq, length_app, Hlen. simpl. lia.
  - intros Heq. unfold noWraparound in Heq. now rewrite Heq.
Qed.

Lemma returned_length_witness :
  length (snd (GetInstancesWithTokenRanges "B" scenarioB))
  = length (tokensOf "B" scenarioB).
Proof.
  apply (returned_length insertionSorter extractMinMerge).
  unfold noWraparound. vm_compute. reflexivity.
Defined.

(** X6.  A call on the snapshot as an earlier call left it, with its token
    slices sorted in place, returns what the call on the original snapshot
    returns, and leaves the snapshot as it is. *)
Theorem repeated_call_agrees
        (sorter : sort.Sorter) (heap : HeapMerge)
        (id id' : string) (instances : list InstanceDesc) :
  GetInstancesWithTokenRanges
    id (fst (GetInstancesWithTokenRanges id' instances))
  = GetInstancesWithTokenRanges id instances.
Proof.
  rewrite GetInstancesWithTokenRanges_post.
  unfold GetInstancesWithTokenRanges.
  rewrite !NewInstanceSortMergeIterator_eq.
  rewrite map_map.
  rewrite (map_ext (fun x => sortTokens (sortTokens x)) sortTokens)
    by apply sortTokens_twice.
  reflexivity.
Qed.

(** * The ring rule *)

Lemma chained_to_plain (rs : list InstanceWithTokenRange) :
  forall prev,
    -1 <= prev < MaxUint32 ->
    chained prev rs ->
    StronglySorted Z.le (prev :: map MaxToken rs) ->
    Forall is_uint32 (map MaxToken rs) ->
    (count_occ Z.eq_dec (map MaxToken rs) MaxUint32 <= 1)%nat ->
    chainedPlain prev rs.
Proof.
  induction rs as [|r rs IH]; intros prev Hprev Hch Hs Hr Hc; simpl in *;
    [exact I|].
  destruct Hch as [Hmin Hch].
  inversion Hs as [|? ? Hs' _]; subst.
  inversion Hr as [|? ? Hr1 Hr']; subst. unfold is_uint32 in Hr1.
  rewrite uint32_small in Hmin by lia. split; [exact Hmin|].
  destruct rs as [|r' rs']; [exact I|].
  apply IH; auto.
  - split; [lia|].
    destruct (Z.eq_dec (MaxToken r) MaxUint32) as [E|E]; [|lia].
    exfalso. simpl in Hs'. inversion Hs' as [|? ? _ Hle]; subst.
    inversion Hle as [|? ? Hle1 _]; subst.
    inversion Hr' as [|? ? Hr2 _]; subst. unfold is_uint32 in Hr2.
    assert (E' : MaxToken r' = MaxUint32) by lia.
    simpl in Hc. destruct (Z.eq_dec (MaxToken r') MaxUint32); [lia|].
    contradiction.
  - destruct (Z.eq_dec (MaxToken r) MaxUint32); lia.
Qed.

Lemma chain_order (rs : list InstanceWithTokenRange) :
  forall prev,
    chainedPlain prev rs ->
    StronglySorted Z.le (prev :: map MaxToken rs) ->
    Forall (fun r => prev < MinToken r) rs /\ disjointAscending rs.
Proof.
  unfold disjointAscending.
  induction rs as [|r rs IH]; intros prev Hch Hs; simpl in *.
  - split; constructor.
  - destruct Hch as [Hmin Hch].
    inversion Hs as [|? ? Hs' Hle]; subst.
    inversion Hle as [|? ? Hpr _]; subst.
    destruct (IH (MaxToken r) Hch Hs') as [Hlow Hd].
    split.
    + constructor; [lia|].
      eapply Forall_impl; [|exact Hlow]. intros x Hx. simpl in Hx. lia.
    + constructor; [exact Hd|exact Hlow].
Qed.

Lemma chain_successor (t : Z) (rs : list InstanceWithTokenRange) :
  forall prev,
    chainedPlain prev rs ->
    StronglySorted Z.le (prev :: map MaxToken rs) ->
    forall r, In r rs -> MinToken r <= t <= MaxToken r ->
              forall u, In u (map MaxToken rs) -> t <= u -> MaxToken r <= u.
Proof.
  induction rs as [|r0 rs IH]; intros prev Hch Hs r Hr Ht u Hu Htu;
    [contradiction|].
  simpl in Hch. destruct Hch as [Hmin Hch].
  inversion Hs as [|? ? Hs' _]; subst.
  destruct Hr as [<-|Hr].
  - destruct Hu as [<-|Hu]; [lia|].
    simpl in Hs'. inversion Hs' as [|? ? _ Hle]; subst.
    rewrite Forall_forall in Hle. now apply Hle.
  - destruct (chain_order rs (MaxToken r0) Hch Hs') as [Hlow _].
    rewrite Forall_forall in Hlow. specialize (Hlow r Hr).
    destruct Hu as [<-|Hu]; [lia|].
    now apply (IH (MaxToken r0) Hch Hs' r Hr Ht u Hu).
Qed.

Lemma last_is_max (ts : list Z) (d : Z) :
  StronglySorted Z.le ts -> forall u, In u ts -> u <= last ts d.
Proof.
  induction ts as [|t ts IH]; intros Hs u Hu; [contradiction|].
  inversion Hs as [|? ? Hs' Hle]; subst.
  rewrite last_cons_default. destruct Hu as [<-|Hu].
  - apply last_ascending. now constructor.
  - destruct ts as [|t' ts']; [contradiction|].
    rewrite (last_default _ t d) by discriminate. now apply IH.
Qed.

Lemma sorted_filter {A : Type} (R : A -> A -> Prop) (f : A -> bool)
      (l : list A) :
  StronglySorted R l -> StronglySorted R (filter f l).
Proof.
  induction 1 as [|a l _ IH Ha]; simpl; [constructor|].
  destruct (f a); [|exact IH]. constructor; [exact IH|].
  rewrite Forall_forall in *. intros x Hx. apply Ha.
  now apply filter_In in Hx.
Qed.

Lemma sorted_snoc {A : Type} (R : A -> A -> Prop) (l : list A) (w : A) :
  StronglySorted R l -> Forall (fun x => R x w) l ->
  StronglySorted R (l ++ [w]).
Proof.
  induction 1 as [|a l _ IH Ha]; intros Hw; simpl.
  - constructor; constructor.
  - inversion Hw as [|? ? Haw Hw']; subst.
    constructor; [now apply IH|].
    apply Forall_app. split; [exact Ha|now constructor].
Qed.

Section RingRule.
Context {sorter : sort.Sorter} {heap : HeapMerge}.

Lemma emitted_top_once (instances : list InstanceDesc) :
  topTokenOnce instances ->
  (count_occ Z.eq_dec (map MaxToken (emitted instances)) MaxUint32 <= 1)%nat.
Proof.
  unfold topTokenOnce. intros H.
  now rewrite (proj1 (Permutation_count_occ Z.eq_dec _ _)
                     (emitted_tokens_perm instances)).
Qed.

Lemma emitted_sorted_from_start (instances : list InstanceDesc) :
  tokensInRange instances ->
  StronglySorted Z.le (-1 :: map MaxToken (emitted instances)).
Proof.
  intros Hwf. constructor; [apply emitted_tokens_ascending|].
  eapply Forall_impl; [|apply (emitted_in_range instances Hwf)].
  unfold is_uint32. intros x Hx. lia.
Qed.

Lemma emitted_plain_general (instances : list InstanceDesc) :
  tokensInRange instances ->
  topTokenOnce instances ->
  chainedPlain (-1) (emitted instances).
Proof.
  intros Hwf Htop. apply chained_to_plain.
  - unfold MaxUint32. lia.
  - apply emitted_chained.
  - now apply emitted_sorted_from_start.
  - now apply emitted_in_range.
  - now apply emitted_top_once.
Qed.

Lemma below_top_once (instances : list InstanceDesc) :
  Forall (fun t => t < MaxUint32) (allTokens instances) ->
  topTokenOnce instances.
Proof.
  intros Hlt. unfold topTokenOnce.
  assert (H : ~ In MaxUint32 (allTokens instances)).
  { intros Hin. rewrite Forall_forall in Hlt. specialize (Hlt _ Hin). lia. }
  apply (count_occ_not_In Z.eq_dec) in H. lia.
Qed.

End RingRule.

(** X7.  The ring rule: when [math.MaxUint32] is held at most once, a key
    that lies within a range of the iterator belongs to the first token at
    or after it, and the owner of the range holds that token. *)
Theorem key_belongs_to_next_token
        (sorter : sort.Sorter) (heap : HeapMerge)
        (instances : list InstanceDesc)
        (r : InstanceWithTokenRange) (t : Z) :
  tokensInRange instances ->
  topTokenOnce instances ->
  In r (emitted instances) ->
  MinToken r <= t <= MaxToken r ->
  In (rangeOwner r) (tokenOwners instances)
  /\ forall u, In u (allTokens instances) -> t <= u -> MaxToken r <= u.
Proof.
  intros Hwf Htop Hr Ht. split.
  - eapply Permutation_in; [apply emitted_owners|]. now apply in_map.
  - intros u Hu Htu.
    apply (chain_successor t (emitted instances) (-1)
             (emitted_plain_general instances Hwf Htop)
             (emitted_sorted_from_start instances Hwf) r Hr Ht);
      [|exact Htu].
    eapply Permutation_in;
      [apply Permutation_sym, emitted_tokens_perm|exact Hu].
Qed.

Lemma key_belongs_to_next_token_witness :
  In (rangeOwner {| Instance := mk "A" [10; 50];
                    MinToken := 31; MaxToken := 50 |})
     (tokenOwners scenarioB)
  /\ forall u, In u (allTokens scenarioB) -> 40 <= u -> 50 <= u.
Proof.
  apply (key_belongs_to_next_token
           insertionSorter extractMinMerge scenarioB
           {| Instance := mk "A" [10; 50]; MinToken := 31; MaxToken := 50 |}
           40).
  - repeat constructor; unfold MaxUint32; lia.
  - unfold topTokenOnce. simpl. lia.
  - vm_compute. right. right. left. reflexivity.
  - simpl. lia.
Defined.

(** X8.  When all tokens lie below [math.MaxUint32], the wraparound range
    appended for [id] is [[L + 1, MaxUint32]] with [L] the largest token of
    the snapshot, and it carries an instance with that id. *)
Theorem wraparound_starts_above_largest_token
        (sorter : sort.Sorter) (heap : HeapMerge)
        (id : string) (instances : list InstanceDesc) :
  tokensInRange instances ->
  Forall (fun t => t < MaxUint32) (allTokens instances) ->
  wraparoundAppended id instances ->
  exists w L,
    snd (GetInstancesWithTokenRanges id instances)
    = filter (ownedBy id) (emitted instances) ++ [w]
    /\ In L (allTokens instances)
    /\ (forall u, In u (allTokens instances) -> u <= L)
    /\ MinToken w = L + 1
    /\ MaxToken w = MaxUint32
    /\ Id (Instance w) = id.
Proof.
  intros Hwf Hlt Happ. apply wraparoundAppended_iff in Happ.
  destruct (returned_shape id instances)
    as [[E _]|[_ [first [rest [w [Hf [Heq [Hw [Hmin Hmax]]]]]]]]];
    [congruence|].
  set (L := last (map MaxToken (emitted instances)) 0) in *.
  assert (Hne : map MaxToken (emitted instances) <> []).
  { intros E. apply map_eq_nil in E. rewrite E in Hf. discriminate. }
  pose proof (last_in _ 0 Hne) as HL. fold L in HL.
  pose proof (emitted_tokens_perm instances) as Hp.
  assert (HL' : In L (allTokens instances))
    by (eapply Permutation_in; [exact Hp|exact HL]).
  exists w, L. rewrite Heq, Hf.
  split; [reflexivity|]. split; [exact HL'|]. split; [|split; [|split]].
  - intros u Hu. apply last_is_max; [apply emitted_tokens_ascending|].
    eapply Permutation_in; [apply Permutation_sym, Hp|exact Hu].
  - rewrite Hmin. apply uint32_small.
    pose proof (emitted_in_range instances Hwf) as Hr.
    rewrite Forall_forall in Hr, Hlt.
    specialize (Hr _ HL). specialize (Hlt _ HL'). unfold is_uint32 in Hr. lia.
  - exact Hmax.
  - rewrite Hw.
    pose proof (filter_owned_id id (emitted instances)) as Hown.
    rewrite Hf in Hown. now inversion Hown.
Qed.

Lemma wraparound_starts_above_largest_token_witness :
  exists w L,
    snd (GetInstancesWithTokenRanges "A" scenarioB)
    = filter (ownedBy "A") (emitted scenarioB) ++ [w]
    /\ In L (allTokens scenarioB)
    /\ (forall u, In u (allTokens scenarioB) -> u <= L)
    /\ MinToken w = L + 1
    /\ MaxToken w = MaxUint32
    /\ Id (Instance w) = "A"%string.
Proof.
  apply (wraparound_starts_above_largest_token
           insertionSorter extractMinMerge).
  - repeat constructor; unfold MaxUint32; lia.
  - repeat constructor; unfold MaxUint32; lia.
  - apply wraparoundAppended_iff. vm_compute. reflexivity.
Defined.

(** X9.  When all tokens lie below [math.MaxUint32], the list returned for
    an id is in ascending order and its ranges do not touch: each range
    ends below the start of the next, the wraparound range last. *)
Theorem returned_ranges_disjoint_ascending
        (sorter : sort.Sorter) (heap : HeapMerge)
        (id : string) (instances : list InstanceDesc) :
  tokensInRange instances ->
  Forall (fun t => t < MaxUint32) (allTokens instances) ->
  disjointAscending (snd (GetInstancesWithTokenRanges id instances)).
Proof.
  intros Hwf Hlt.
  pose proof (emitted_plain_general instances Hwf
                (below_top_once instances Hlt)) as Hch.
  destruct (chain_order _ _ Hch (emitted_sorted_from_start instances Hwf))
    as [_ Hd].
  pose proof (sorted_filter _ (ownedBy id) _ Hd) as Hf.
  destruct (returned_shape id instances)
    as [[_ Heq]|[_ [first [rest [w [Hfe [Heq [_ [Hmin _]]]]]]]]];
    rewrite Heq; [exact Hf|].
  rewrite <- Hfe. apply sorted_snoc; [exact Hf|].
  apply Forall_forall. intros r Hr. apply filter_In in Hr.
  destruct Hr as [Hr _].
  assert (HrL : MaxToken r <= last (map MaxToken (emitted instances)) 0).
  { apply last_is_max; [apply emitted_tokens_ascending|now apply in_map]. }
  assert (Hne : map MaxToken (emitted instances) <> []).
  { intros E. apply map_eq_nil in E. rewrite E in Hr. contradiction. }
  pose proof (last_in _ 0 Hne) as HL.
  pose proof (emitted_in_range instances Hwf) as Hrange.
  assert (Hlt' : Forall (fun x => x < MaxUint32)
                        (map MaxToken (emitted instances))).
  { eapply Permutation_Forall;
      [apply Permutation_sym, emitted_tokens_perm|exact Hlt]. }
  rewrite Forall_forall in Hrange, Hlt'.
  specialize (Hrange _ HL). specialize (Hlt' _ HL).
  unfold is_uint32 in Hrange.
  rewrite Hmin, uint32_small by lia. lia.
Qed.

Lemma returned_ranges_disjoint_ascending_witness :
  disjointAscending (snd (GetInstancesWithTokenRanges "A" scenarioB)).
Proof.
  apply (returned_ranges_disjoint_ascending insertionSorter extractMinMerge).
  - repeat constructor; unfold MaxUint32; lia.
  - repeat constructor; unfold MaxUint32; lia.
Defined.

(** * One owner per key *)

Lemma overlapCount_flat_map_zero (t : Z)
      (f : string -> list InstanceWithTokenRange) (ids : list string) :
  overlapCount t (flat_map f ids) = 0%nat ->
  forall id, In id ids -> overlapCount t (f id) = 0%nat.
Proof.
  induction ids as [|i ids IH]; intros H id Hid; [contradiction|].
  simpl in H. rewrite overlapCount_app in H.
  destruct Hid as [<-|Hid]; [lia|]. apply IH; [lia|exact Hid].
Qed.

Lemma overlapCount_flat_map_one (t : Z)
      (f : string -> list InstanceWithTokenRange) (ids : list string) :
  NoDup ids ->
  overlapCount t (flat_map f ids) = 1%nat ->
  exists id, In id ids
             /\ overlapCount t (f id) = 1%nat
             /\ forall id', In id' ids -> id' <> id ->
                            overlapCount t (f id') = 0%nat.
Proof.
  induction ids as [|i ids IH]; intros Hnd H; [discriminate|].
  inversion Hnd as [|? ? Hnotin Hnd']; subst.
  simpl in H. rewrite overlapCount_app in H.
  destruct (overlapCount t (f i)) as [|[|c]] eqn:E.
  - destruct (IH Hnd' ltac:(lia)) as [id [Hid [H1 H0]]].
    exists id. split; [now right|]. split; [exact H1|].
    intros id' [<-|Hin] Hne; [exact E|now apply H0].
  - exists i. split; [now left|]. split; [exact E|].
    intros id' [->|Hin] Hne; [contradiction|].
    apply (overlapCount_flat_map_zero t f ids); [lia|exact Hin].
  - lia.
Qed.

Section OneOwner.
Context {sorter : sort.Sorter} {heap : HeapMerge}.

(** The ranges of all ids cover each key once. *)
Lemma allRanges_cover_once (instances : list InstanceDesc) :
  tokensInRange instances ->
  allTokens instances <> [] ->
  Forall (fun t => t < MaxUint32) (allTokens instances) ->
  forall t, is_uint32 t -> overlapCount t (allRanges instances) = 1%nat.
Proof.
  intros Hwf Htok Hlt t [Ht0 Ht1].
  pose proof (emitted_nonempty instances Htok) as Hne.
  destruct (allRanges_perm instances Hne) as [w [Hp [Hmin Hmax]]].
  rewrite (overlapCount_perm _ _ _ Hp), overlapCount_app.
  assert (Hlt' : Forall (fun x => x < MaxUint32)
                        (map MaxToken (emitted instances))).
  { eapply Permutation_Forall;
      [apply Permutation_sym, emitted_tokens_perm|exact Hlt]. }
  rewrite (chain_cover t _ (-1) ltac:(lia) (emitted_chained instances)
                       (emitted_sorted_from_start instances Hwf) Hlt').
  assert (Hne' : map MaxToken (emitted instances) <> []).
  { intros E. apply map_eq_nil in E. contradiction. }
  rewrite (last_default _ (-1) 0 Hne').
  pose proof (last_in _ 0 Hne') as Hin.
  pose proof (emitted_in_range instances Hwf) as Hr.
  set (L := last (map MaxToken (emitted instances)) 0) in *.
  rewrite Forall_forall in Hr, Hlt'.
  specialize (Hr _ Hin). specialize (Hlt' _ Hin). unfold is_uint32 in Hr.
  rewrite uint32_small in Hmin by lia.
  unfold overlapCount. simpl. rewrite overlaps_iff, Hmin, Hmax.
  destruct (Z.ltb_spec (-1) t), (Z.leb_spec t L), (Z.leb_spec (L + 1) t),
    (Z.leb_spec t MaxUint32); simpl; try reflexivity; lia.
Qed.

Lemma absent_id_no_ranges (id : string) (instances : list InstanceDesc) :
  ~ In id (map Id instances) ->
  snd (GetInstancesWithTokenRanges id instances) = [].
Proof.
  intros Hout.
  assert (Hnone : filter (ownedBy id) (emitted instances) = []).
  { rewrite (filter_ext_in _ (fun _ => false)); [apply filter_none|].
    intros r Hr. unfold ownedBy. apply String.eqb_neq. intros Hid.
    apply Hout. rewrite <- Hid. now apply emitted_ids. }
  rewrite GetInstancesWithTokenRanges_ranges.
  unfold receivesWraparound, appendsWraparound.
  rewrite scanAll_servers, Hnone. reflexivity.
Qed.

End OneOwner.

(** X10.  Sharding by [Contains]: in a snapshot that holds at least one
    token, all below [math.MaxUint32], every key of the keyspace is
    contained in the ranges of exactly one id, and that id is in the
    snapshot. *)
Theorem every_key_has_one_owner
        (sorter : sort.Sorter) (heap : HeapMerge)
        (instances : list InstanceDesc) (t : Z) :
  tokensInRange instances ->
  allTokens instances <> [] ->
  Forall (fun u => u < MaxUint32) (allTokens instances) ->
  is_uint32 t ->
  exists id,
    In id (map Id instances)
    /\ Contains (snd (GetInstancesWithTokenRanges id instances)) t = true
    /\ forall id',
        Contains (snd (GetInstancesWithTokenRanges id' instances)) t = true ->
        id' = id.
Proof.
  intros Hwf Htok Hlt Ht.
  pose proof (allRanges_cover_once instances Hwf Htok Hlt t Ht) as Hone.
  unfold allRanges, idsOf in Hone.
  apply overlapCount_flat_map_one in Hone; [|apply NoDup_nodup].
  destruct Hone as [id [Hid [H1 H0]]].
  exists id. split; [exact (proj1 (nodup_In string_dec _ _) Hid)|].
  split; [apply Contains_overlapCount; lia|].
  intros id' Hc. apply Contains_overlapCount in Hc.
  destruct (string_dec id' id) as [E|E]; [exact E|exfalso].
  destruct (in_dec string_dec id' (map Id instances)) as [Hin|Hout].
  - rewrite (H0 id') in Hc; [lia| |exact E].
    exact (proj2 (nodup_In string_dec _ _) Hin).
  - rewrite (absent_id_no_ranges id' instances Hout) in Hc.
    unfold overlapCount in Hc. simpl in Hc. lia.
Qed.

Lemma every_key_has_one_owner_witness :
  exists id,
    In id (map Id scenarioB)
    /\ Contains (snd (GetInstancesWithTokenRanges id scenarioB)) 40 = true
    /\ forall id',
        Contains (snd (GetInstancesWithTokenRanges id' scenarioB)) 40 = true ->
        id' = id.
Proof.
  apply (every_key_has_one_owner insertionSorter extractMinMerge).
  - repeat constructor; unfold MaxUint32; lia.
  - discriminate.
  - repeat constructor; unfold MaxUint32; lia.
  - unfold is_uint32, MaxUint32. lia.
Defined.

(** * The partition as a function of the token assignment *)

Lemma chain_triples (rs : list InstanceWithTokenRange) :
  forall (rs' : list InstanceWithTokenRange) (prev : Z),
    chained prev rs -> chained prev rs' ->
    map rangeOwner rs = map rangeOwner rs' ->
    map rangeTriple rs = map rangeTriple rs'.
Proof.
  induction rs as [|r rs IH]; intros [|r' rs'] prev Hc Hc' Heq;
    try discriminate; [reflexivity|].
  simpl in *. destruct Hc as [Hmin Hc], Hc' as [Hmin' Hc'].
  injection Heq as Hmax Hid Hrest.
  f_equal; [unfold rangeTriple; congruence|].
  rewrite <- Hmax in Hc'. now apply (IH rs' (MaxToken r)).
Qed.

Lemma triples_filter (id : string) (rs : list InstanceWithTokenRange) :
  forall rs' : list InstanceWithTokenRange,
    map rangeTriple rs = map rangeTriple rs' ->
    map rangeTriple (filter (ownedBy id) rs)
    = map rangeTriple (filter (ownedBy id) rs').
Proof.
  induction rs as [|r rs IH]; intros [|r' rs'] Heq; try discriminate;
    [reflexivity|].
  simpl in *. injection Heq as Hmin Hmax Hid Hrest.
  assert (Ho : ownedBy id r = ownedBy id r')
    by (unfold ownedBy; now rewrite Hid).
  rewrite Ho. destruct (ownedBy id r'); simpl.
  - f_equal; [unfold rangeTriple; congruence|now apply IH].
  - now apply IH.
Qed.

Lemma triples_pickFirst (rs : list InstanceWithTokenRange) :
  forall (rs' : list InstanceWithTokenRange) (cur cur' : InstanceDesc),
    Id cur = Id cur' ->
    map rangeTriple rs = map rangeTriple rs' ->
    Id (pickFirst cur rs) = Id (pickFirst cur' rs').
Proof.
  induction rs as [|r rs IH]; intros [|r' rs'] cur cur' Hcur Heq;
    try discriminate; [exact Hcur|].
  simpl in *. injection Heq as _ _ Hid Hrest.
  apply IH; [|exact Hrest]. rewrite Hcur.
  destruct (String.eqb (Id cur') EmptyString); [exact Hid|exact Hcur].
Qed.

Lemma triples_MaxToken (rs rs' : list InstanceWithTokenRange) :
  map rangeTriple rs = map rangeTriple rs' ->
  map MaxToken rs = map MaxToken rs'.
Proof.
  intros H. apply (f_equal (map (fun tr => snd (fst tr)))) in H.
  now rewrite !map_map in H.
Qed.

Lemma triples_collect (id : string) (rs rs' : list InstanceWithTokenRange) :
  map rangeTriple rs = map rangeTriple rs' ->
  map rangeTriple (collect id rs) = map rangeTriple (collect id rs').
Proof.
  intros Heq. unfold collect. rewrite !map_app.
  pose proof (triples_filter id rs rs' Heq) as Hf. rewrite Hf. f_equal.
  unfold appendsWraparound.
  rewrite !scanAll_servers, !scanAll_firstInst.
  rewrite (triples_pickFirst rs rs' zeroInstance zeroInstance eq_refl Heq).
  assert (Hlen : length (filter (ownedBy id) rs)
                 = length (filter (ownedBy id) rs')).
  { rewrite <- (length_map rangeTriple), Hf. apply length_map. }
  rewrite Hlen.
  destruct (filter (ownedBy id) rs') as [|f' l'] eqn:E'; [reflexivity|].
  destruct (filter (ownedBy id) rs) as [|f l] eqn:E; [discriminate|].
  simpl in Hf. injection Hf as _ _ Hid _.
  destruct ((0 <? length (f' :: l'))%nat
            && String.eqb (Id (pickFirst zeroInstance rs')) id);
    [|reflexivity].
  simpl. unfold rangeTriple. simpl. rewrite !scanAll_lastToken.
  now rewrite (triples_MaxToken rs rs' Heq), Hid.
Qed.

Section Assignment.
Context {sorter : sort.Sorter} {heap : HeapMerge}.

Lemma returned_collect (id : string) (instances : list InstanceDesc) :
  snd (GetInstancesWithTokenRanges id instances)
  = collect id (emitted instances).
Proof. apply GetInstancesWithTokenRanges_ranges. Qed.

Lemma emitted_owners_unique (a b : list InstanceDesc) :
  Permutation (tokenOwners a) (tokenOwners b) ->
  NoDup (allTokens a) ->
  map rangeOwner (emitted a) = map rangeOwner (emitted b).
Proof.
  intros Hp Hnd.
  assert (Hfst : forall x, map fst (map rangeOwner (emitted x))
                           = map MaxToken (emitted x)).
  { intros x. rewrite map_map. reflexivity. }
  apply (ascending_perm_unique fst).
  - apply NoDup_map_eq. rewrite Hfst.
    eapply Permutation_NoDup;
      [apply Permutation_sym, emitted_tokens_perm|exact Hnd].
  - eapply perm_trans; [apply emitted_owners|].
    eapply perm_trans; [exact Hp|apply Permutation_sym, emitted_owners].
  - apply ascending_map. rewrite Hfst. apply emitted_tokens_ascending.
  - apply ascending_map. rewrite Hfst. apply emitted_tokens_ascending.
Qed.

Lemma emitted_triples_unique (a b : list InstanceDesc) :
  Permutation (tokenOwners a) (tokenOwners b) ->
  NoDup (allTokens a) ->
  map rangeTriple (emitted a) = map rangeTriple (emitted b).
Proof.
  intros Hp Hnd. apply (chain_triples _ _ (-1)); try apply emitted_chained.
  now apply emitted_owners_unique.
Qed.

End Assignment.

(** X11.  With pairwise distinct tokens the ranges returned for an id, read
    as (min, max, owner id), depend only on which id holds which token:
    two snapshots with the same (token, owner id) pairs give the same
    ranges, whatever the order of the instances, the order of the tokens
    within an instance, or the presence of instances without tokens. *)
Theorem ranges_depend_on_assignment_only
        (sorter : sort.Sorter) (heap : HeapMerge)
        (id : string) (a b : list InstanceDesc) :
  Permutation (tokenOwners a) (tokenOwners b) ->
  NoDup (allTokens a) ->
  map rangeTriple (emitted a) = map rangeTriple (emitted b)
  /\ map rangeTriple (snd (GetInstancesWithTokenRanges id a))
     = map rangeTriple (snd (GetInstancesWithTokenRanges id b)).
Proof.
  intros Hp Hnd.
  pose proof (emitted_triples_unique a b Hp Hnd) as He.
  split; [exact He|].
  rewrite !returned_collect. now apply triples_collect.
Qed.

Lemma ranges_depend_on_assignment_only_witness :
  map rangeTriple (emitted scenarioB)
  = map rangeTriple (emitted [mk "C" []; mk "B" [30]; mk "A" [10; 50]])
  /\ map rangeTriple (snd (GetInstancesWithTokenRanges "A" scenarioB))
     = map rangeTriple
         (snd (GetInstancesWithTokenRanges
                 "A" [mk "C" []; mk "B" [30]; mk "A" [10; 50]])).
Proof.
  apply (ranges_depend_on_assignment_only insertionSorter extractMinMerge).
  - simpl. apply Permutation_sym.
    change (Permutation ([(30, "B"%string)] ++ [(10, "A"%string);
                                                 (50, "A"%string)])
                        ([(50, "A"%string); (10, "A"%string)]
                           ++ [(30, "B"%string)])).
    eapply perm_trans; [apply Permutation_app_comm|].
    apply Permutation_app_tail, perm_swap.
  - repeat constructor; simpl; intuition lia.
Defined.

(** * Further properties of GetInstanceWithTokenRange *)

Lemma ascending_nth {A : Type} (key : A -> Z) (l : list A) :
  ascending key l ->
  forall (i j : nat) (x y : A),
    (i < j)%nat -> nth_error l i = Some x -> nth_error l j = Some y ->
    key x <= key y.
Proof.
  unfold ascending. induction 1 as [|a l _ IH Ha]; intros i j x y Hij Hi Hj.
  - destruct i; discriminate.
  - destruct j as [|j]; [lia|]. simpl in Hj. destruct i as [|i]; simpl in Hi.
    + injection Hi as <-. rewrite Forall_forall in Ha.
      apply Ha. eapply nth_error_In. exact Hj.
    + apply (IH i j); auto. lia.
Qed.

Lemma slot_bounds (n i : Z) :
  1 <= n <= MaxUint64 ->
  0 <= i < n ->
  0 <= Min (slot n i) <= Max (slot n i)
  /\ Max (slot n i) <= MaxUint64
  /\ width (slot n i)
     = if i =? n - 1 then MaxUint64 / n + MaxUint64 mod n + 1
       else MaxUint64 / n.
Proof.
  intros Hn Hi. destruct (step_bounds n Hn) as [Hstep Hmul].
  pose proof (Z.div_mod MaxUint64 n ltac:(lia)) as Hdm.
  pose proof (Z.mod_pos_bound MaxUint64 n ltac:(lia)) as Hmod.
  unfold width, slot, NewBounds. simpl.
  set (step := MaxUint64 / n) in *. set (rem := MaxUint64 mod n) in *.
  destruct (Z.eqb_spec i (n - 1)) as [E|E].
  - subst i. split; [nia|]. split; [lia|]. nia.
  - assert (i * step + step <= (n - 1) * step) by nia.
    split; [nia|]. split; [nia|]. lia.
Qed.

Lemma slots_ordered (n i j : Z) :
  1 <= n <= MaxUint64 ->
  0 <= i -> i < j -> j < n ->
  Max (slot n i) < Min (slot n j).
Proof.
  intros Hn Hi Hij Hj. destruct (step_bounds n Hn) as [Hstep _].
  unfold slot, NewBounds. simpl.
  destruct (Z.eqb_spec i (n - 1)) as [E|_]; [lia|]. nia.
Qed.

Section SingleTokenExtras.
Context {sorter : sort.Sorter}.

Lemma byFirstToken_unique (a b : list InstanceDesc) :
  Permutation a b ->
  NoDup (map firstToken a) ->
  byFirstToken b = byFirstToken a.
Proof.
  intros Hp Hkeys. apply (ascending_perm_unique firstToken).
  - apply NoDup_map_eq. eapply Permutation_NoDup; [|exact Hkeys].
    apply Permutation_map.
    eapply perm_trans; [exact Hp|apply byFirstToken_perm].
  - eapply perm_trans; [apply Permutation_sym, byFirstToken_perm|].
    eapply perm_trans; [apply Permutation_sym, Hp|apply byFirstToken_perm].
  - apply byFirstToken_ascending.
  - apply byFirstToken_ascending.
Qed.

End SingleTokenExtras.

(** X12.  The slots are balanced: the range returned for the id at ordinal
    [i] lies within [[0, MaxUint64]], is not inverted, and holds exactly
    [step = MaxUint64 / n] keys, except the last one, which holds
    [step + MaxUint64 mod n + 1]. *)
Theorem single_token_slot_width (sorter : sort.Sorter)
        (instances : list InstanceDesc) (i : nat) (inst : InstanceDesc) :
  Forall holdsToken instances ->
  Z.of_nat (length instances) <= MaxInt ->
  NoDup (map Id instances) ->
  nth_error (byFirstToken instances) i = Some inst ->
  let n := Z.of_nat (length instances) in
  exists b,
    GetInstanceWithTokenRange (Id inst) instances
    = Returns (byFirstToken instances) (b, None)
    /\ 0 <= Min b <= Max b
    /\ Max b <= MaxUint64
    /\ width b
       = if Z.of_nat i =? n - 1 then MaxUint64 / n + MaxUint64 mod n + 1
         else MaxUint64 / n.
Proof.
  intros Hh Hlen Hnd Hnth n.
  exists (slot n (Z.of_nat i)).
  split; [now apply call_at_ordinal|].
  assert (Hi : (i < length instances)%nat).
  { rewrite <- byFirstToken_length. apply nth_error_Some. congruence. }
  apply slot_bounds; unfold n, MaxInt, MaxUint64 in *; lia.
Qed.

Lemma single_token_slot_width_witness :
  exists b,
    GetInstanceWithTokenRange "c" scenarioA
    = Returns (byFirstToken scenarioA) (b, None)
    /\ 0 <= Min b <= Max b
    /\ Max b <= MaxUint64
    /\ width b = MaxUint64 / 3 + MaxUint64 mod 3 + 1.
Proof.
  apply (single_token_slot_width insertionSorter scenarioA 2 (mk "c" [9])).
  - repeat constructor; discriminate.
  - unfold MaxInt. simpl. lia.
  - repeat constructor; simpl; intuition discriminate.
  - reflexivity.
Defined.

(** X13.  The slots follow the order of the first tokens: the range of an
    instance with a smaller first token ends below the start of the range
    of an instance with a larger one. *)
Theorem single_token_order_preserved (sorter : sort.Sorter)
        (instances : list InstanceDesc) (a b : InstanceDesc) :
  Forall holdsToken instances ->
  Z.of_nat (length instances) <= MaxInt ->
  NoDup (map Id instances) ->
  In a instances -> In b instances ->
  firstToken a < firstToken b ->
  exists ba bb,
    GetInstanceWithTokenRange (Id a) instances
    = Returns (byFirstToken instances) (ba, None)
    /\ GetInstanceWithTokenRange (Id b) instances
       = Returns (byFirstToken instances) (bb, None)
    /\ Max ba < Min bb.
Proof.
  intros Hh Hlen Hnd Ha Hb Hab.
  apply (Permutation_in _ (byFirstToken_perm instances)) in Ha, Hb.
  apply In_nth_error in Ha, Hb.
  destruct Ha as [i Hi], Hb as [j Hj].
  assert (Hjn : (j < length instances)%nat).
  { rewrite <- byFirstToken_length. apply nth_error_Some. congruence. }
  assert (Hij : (i < j)%nat).
  { destruct (Nat.lt_trichotomy i j) as [H|[H|H]]; [exact H| |].
    - subst j. rewrite Hi in Hj. injection Hj as <-. lia.
    - pose proof (ascending_nth firstToken _
                    (byFirstToken_ascending instances) j i b a H Hj Hi).
      lia. }
  exists (slot (Z.of_nat (length instances)) (Z.of_nat i)),
    (slot (Z.of_nat (length instances)) (Z.of_nat j)).
  split; [now apply call_at_ordinal|].
  split; [now apply call_at_ordinal|].
  apply slots_ordered; unfold MaxInt, MaxUint64 in *; lia.
Qed.

Lemma single_token_order_preserved_witness :
  exists ba bb,
    GetInstanceWithTokenRange "a" scenarioA
    = Returns (byFirstToken scenarioA) (ba, None)
    /\ GetInstanceWithTokenRange "c" scenarioA
       = Returns (byFirstToken scenarioA) (bb, None)
    /\ Max ba < Min bb.
Proof.
  apply (single_token_order_preserved insertionSorter scenarioA
                                      (mk "a" [3]) (mk "c" [9])).
  - repeat constructor; discriminate.
  - unfold MaxInt. simpl. lia.
  - repeat constructor; simpl; intuition discriminate.
  - right. now left.
  - right. right. now left.
  - unfold firstToken. simpl. lia.
Defined.

(** X14.  With pairwise distinct first tokens the call does not depend on
    the order of the instances slice: on any reordering of the snapshot it
    returns the same range or error and leaves the slice in the same
    order. *)
Theorem single_token_order_independent (sorter : sort.Sorter)
        (id : string) (instances instances' : list InstanceDesc) :
  Permutation instances instances' ->
  Forall holdsToken instances ->
  NoDup (map firstToken instances) ->
  GetInstanceWithTokenRange id instances'
  = GetInstanceWithTokenRange id instances.
Proof.
  intros Hp Hh Hkeys.
  assert (Hh' : Forall holdsToken instances')
    by (eapply Permutation_Forall; [exact Hp|exact Hh]).
  unfold GetInstanceWithTokenRange.
  rewrite (lessPanics_false _ Hh), (lessPanics_false _ Hh').
  fold (byFirstToken instances'). fold (byFirstToken instances).
  rewrite (byFirstToken_unique instances instances' Hp Hkeys).
  reflexivity.
Qed.

Lemma single_token_order_independent_witness :
  GetInstanceWithTokenRange "b" [mk "c" [9]; mk "b" [7]; mk "a" [3]]
  = GetInstanceWithTokenRange "b" scenarioA.
Proof.
  apply (single_token_order_independent insertionSorter).
  - unfold scenarioA.
    apply Permutation_sym.
    change (Permutation ([mk "c" [9]] ++ [mk "b" [7]; mk "a" [3]])
                        ([mk "b" [7]; mk "a" [3]] ++ [mk "c" [9]])).
    apply Permutation_app_comm.
  - repeat constructor; discriminate.
  - unfold firstToken. repeat constructor; simpl; intuition lia.
Defined.

(** X15.  A snapshot of one instance: the instance gets the whole keyspace
    [[0, MaxUint64]], also when it holds no token, and any other id gets
    [ErrInstanceNotFound]; the call does not panic. *)
Theorem single_instance_owns_keyspace (sorter : sort.Sorter)
        (inst : InstanceDesc) (id : string) :
  GetInstanceWithTokenRange id [inst]
  = if String.eqb (Id inst) id
    then Returns [inst] (NewBounds 0 MaxUint64, None)
    else Returns [inst] (NewBounds 0 0, Some ErrInstanceNotFound).
Proof.
  unfold GetInstanceWithTokenRange.
  assert (Hl : lessPanics [inst] = false) by reflexivity. rewrite Hl.
  fold (byFirstToken [inst]).
  assert (Hpost : byFirstToken [inst] = [inst])
    by (apply Permutation_length_1_inv, byFirstToken_perm).
  rewrite Hpost. unfold slices.IndexFunc. simpl.
  destruct (String.eqb (Id inst) id); reflexivity.
Qed.

(** * Further properties of NewInstanceSortMergeIterator *)

Section IteratorExtras.
Context {sorter : sort.Sorter} {heap : HeapMerge}.

Lemma emitted_instances (instances : list InstanceDesc) :
  Permutation
    (map (fun r => (MaxToken r, Instance r)) (emitted instances))
    (flat_map (fun inst => map (fun t => (t, inst)) (Tokens inst))
              (map sortTokens instances)).
Proof.
  rewrite emitted_eq. set (post := map sortTokens instances).
  rewrite <- tagged_owners.
  assert (Hmap : forall l prev,
             map (fun r => (MaxToken r, Instance r)) (rangesFrom post prev l)
             = map (fun iv => (Value iv, nth (Index iv) post zeroInstance)) l).
  { induction l as [|iv l IH]; intros prev; simpl; [|rewrite IH];
      reflexivity. }
  rewrite Hmap. apply Permutation_map, Permutation_sym, mergedTokens_perm.
Qed.

End IteratorExtras.

(** X16.  Every range of the iterator carries an instance of the caller's
    snapshot, as the in-place sorts left it, and that instance holds the
    token the range ends at: [instances[iv.Index()]] is never out of
    range. *)
Theorem emitted_instance_holds_token
        (sorter : sort.Sorter) (heap : HeapMerge)
        (instances : list InstanceDesc) (r : InstanceWithTokenRange) :
  In r (snd (NewInstanceSortMergeIterator instances)) ->
  In (Instance r) (fst (NewInstanceSortMergeIterator instances))
  /\ In (MaxToken r) (Tokens (Instance r)).
Proof.
  intros Hr. fold (emitted instances) in Hr.
  rewrite NewInstanceSortMergeIterator_eq. simpl fst.
  assert (H : In (MaxToken r, Instance r)
                 (map (fun r => (MaxToken r, Instance r))
                      (emitted instances)))
    by (apply in_map_iff; now exists r).
  apply (Permutation_in _ (emitted_instances instances)) in H.
  apply in_flat_map in H. destruct H as [inst [Hinst Hin]].
  apply in_map_iff in Hin. destruct Hin as [t [Heq Ht]].
  injection Heq as Htok Hi. subst. now split.
Qed.

Lemma emitted_instance_holds_token_witness :
  In (mk "B" [30]) (fst (NewInstanceSortMergeIterator scenarioB))
  /\ In 30 (Tokens (mk "B" [30])).
Proof.
  apply (emitted_instance_holds_token
           insertionSorter extractMinMerge scenarioB
           {| Instance := mk "B" [30]; MinToken := 11; MaxToken := 30 |}).
  vm_compute. right. left. reflexivity.
Defined.
